(** * sqlsess: a database-backed session store (db.go)

    A shallow embedding of [db.go] and of the parts of its collaborators
    the store talks to (database/sql, net/http, securecookie, time,
    locker), followed by the properties of the store.

    Layout:
    - Go-level data (errors, results, int64 durations, instants);
    - the session relation, HTTP cookies, and the world the store runs in;
    - the calls the store makes on database/sql;
    - the store itself ([Clean], [Delete], [New], [Save], [Store_id],
      [SetKeys], [readCookie], [writeCookie]), function by function as
      in db.go;
    - the properties, and the properties at concrete inputs.

    The model is sequential: one call of the store runs at a time, and
    the locks it takes are only logged. State is passed explicitly: a
    function of the store takes the [World] and returns it. Whatever the
    database driver may refuse (a lost connection, a value the column
    does not take) is a failure scheduled in the world's fault script;
    the primary key of the table is checked by the model itself. *)

From Stdlib Require Import ZArith List String Ascii Lia.
From Stdlib.Strings Require Import Byte.
From Stdlib Require DecimalString.
From stdpp Require Import base tactics option list gmap strings fin_maps.

Set Default Proof Using "Type".

(** ** Go-level data *)

Abbreviation bytes := (list Byte.byte) (only parsing).

#[global] Instance byte_eq_dec : EqDecision Byte.byte.
Proof.
  intros a b. destruct (Byte.eqb a b) eqn:E.
  - left. exact (Byte.byte_dec_bl a b E).
  - right. intros ->. pose proof (Byte.byte_dec_lb (eq_refl b)). congruence.
Defined.

(** A Go [error] value; [nil] is [None] where a function returns only an
    error, and [(T, error)] results are [result T]. *)
Definition error := string.

Inductive result (A : Type) : Type :=
| Ok (a : A)
| Err (e : error).
Arguments Ok {A} a.
Arguments Err {A} e.

(** What a call that may panic does. *)
Inductive outcome (A : Type) : Type :=
| Returned (a : A)
| Panicked (msg : string).
Arguments Returned {A} a.
Arguments Panicked {A} msg.

(** [time.Time], as the instant it denotes: nanoseconds since the epoch.
    The location is not tracked ([UTC] keeps the instant), and the store
    compares instants only ([Before]). *)
Abbreviation Time := Z (only parsing).

(** [time.Duration] is an int64 count of nanoseconds. *)
Abbreviation Duration := Z (only parsing).

Definition Duration_min : Z := (- 2 ^ 63)%Z.
Definition Duration_max : Z := (2 ^ 63 - 1)%Z.

Definition is_Duration (d : Z) : Prop := (Duration_min <= d <= Duration_max)%Z.

(** Two's complement wrap-around of int64 arithmetic. *)
Definition wrap64 (z : Z) : Z := ((z + 2 ^ 63) mod 2 ^ 64 - 2 ^ 63)%Z.

(** Unary minus on a [Duration] ([-inactive] in [Clean]). *)
Definition Duration_neg (d : Duration) : Duration := wrap64 (- d).

Definition time_UTC (t : Time) : Time := t.
Definition time_Add (t : Time) (d : Duration) : Time := (t + d)%Z.
Definition time_Before (t u : Time) : bool := (t <? u)%Z.

(** ** The session relation *)

Definition SessionLastUpdated : string := "__sess_last_updated".
Definition CookieIdName : string := "sess_sessionid".

(** One row of [sess_session]: (id BYTEA, name, key, value), with
    primary key (id, name, key). *)
Record Row : Type := mkRow {
  row_id : bytes;
  row_name : string;
  row_key : string;
  row_value : string
}.

Definition row_pk (r : Row) : bytes * string * string :=
  (row_id r, row_name r, row_key r).

(** A value held in [sess.Values] (a [map[interface{}]interface{}] in
    Go): the store itself puts strings there, under string keys, when
    [New] loads a session, and a [time.Time] under the reserved key when
    [Save] stamps it. *)
Inductive value : Type :=
| VString (s : string)
| VTime (t : Time).

(** ** HTTP cookies *)

Record Cookie : Type := mkCookie {
  cookie_Name : string;
  cookie_Value : string;
  cookie_Path : string;
  cookie_HttpOnly : bool
}.

(** The cookies a request carries. *)
Record Request : Type := mkRequest { req_cookies : list Cookie }.

(** The Set-Cookie headers written on a response so far. *)
Abbreviation ResponseWriter := (list Cookie) (only parsing).

Definition ErrNoCookie : error := "http: named cookie not present".

(** [r.Cookie(name)]: the first cookie of that name. *)
Definition Request_Cookie (r : Request) (name : string) : result Cookie :=
  match filter (λ c, cookie_Name c = name) (req_cookies r) with
  | c :: _ => Ok c
  | [] => Err ErrNoCookie
  end.

(** ** Events and the world the store runs in *)

Inductive Event : Type :=
| EvLock (key : string)
| EvUnlock (key : string)
| EvRLock (key : string)
| EvRUnlock (key : string)
| EvSetCookie (c : Cookie)
| EvBegin
| EvCommit
| EvRollback.

(** The world: the committed content of the table, the failures the
    driver is going to report (one entry per driver call, [None] or an
    exhausted script meaning the call goes through), the wall clock,
    the system's random source with the number of bytes drawn from it,
    and the log of lock, cookie and transaction-control calls. *)
Record World : Type := mkWorld {
  table : list Row;
  faults : list (option error);
  clock : Time;
  entropy : nat → Byte.byte;
  drawn : nat;
  trace : list Event
}.

Definition set_table (t : list Row) (w : World) : World :=
  mkWorld t (faults w) (clock w) (entropy w) (drawn w) (trace w).
Definition set_faults (f : list (option error)) (w : World) : World :=
  mkWorld (table w) f (clock w) (entropy w) (drawn w) (trace w).
Definition set_drawn (n : nat) (w : World) : World :=
  mkWorld (table w) (faults w) (clock w) (entropy w) n (trace w).
Definition log (e : Event) (w : World) : World :=
  mkWorld (table w) (faults w) (clock w) (entropy w) (drawn w) (trace w ++ [e]).

Definition time_Now (w : World) : Time := clock w.

(** [securecookie.GenerateRandomKey(n)], by its contract: a key of [n]
    bytes read from the system's random source, here the next [n] bytes
    of [entropy]. *)
Definition GenerateRandomKey (n : nat) (w : World) : bytes * World :=
  ((λ i, entropy w (drawn w + i)) <$> seq 0 n, set_drawn (drawn w + n) w).

(** Every call into the driver consumes one entry of the fault script. *)
Definition driver_call (w : World) : option error * World :=
  match faults w with
  | [] => (None, w)
  | f :: fs => (f, set_faults fs w)
  end.

(** ** The SQL statements of db.go, as functions on the table *)

(** [DELETE FROM sess_session WHERE id = $1] *)
Definition sql_delete_where_id (id : bytes) (t : list Row) : list Row :=
  filter (λ r, row_id r ≠ id) t.

(** [SELECT id, value FROM sess_session WHERE key = $1] *)
Definition sql_select_id_value (key : string) (t : list Row)
  : list (bytes * string) :=
  (λ r, (row_id r, row_value r)) <$> filter (λ r, row_key r = key) t.

(** [SELECT key, value FROM sess_session WHERE id = $1 AND name = $2] *)
Definition sql_select_key_value (id : bytes) (name : string) (t : list Row)
  : list (string * string) :=
  (λ r, (row_key r, row_value r))
    <$> filter (λ r, row_id r = id ∧ row_name r = name) t.

Definition ErrDuplicateKey : error :=
  "duplicate key value violates unique constraint".

(** [INSERT INTO sess_session (id, name, key, value) VALUES ($1, $2, $3, $4)],
    refused when the primary key (id, name, key) is taken. *)
Definition sql_insert (r : Row) (t : list Row) : result (list Row) :=
  if decide (row_pk r ∈ row_pk <$> t) then Err ErrDuplicateKey
  else Ok (t ++ [r]).

(** All rows of one id, whatever the name. *)
Definition rows_of_id (id : bytes) (t : list Row) : list Row :=
  filter (λ r, row_id r = id) t.

(** ** The collaborators the store is parameterised by *)

(** A [*securecookie.SecureCookie]: [Encode(name, value)] and
    [Decode(name, value, &dst)]. *)
Record SecureCookie : Type := mkSecureCookie {
  Encode : string → string → result string;
  Decode : string → string → result string
}.

(** What db.go takes from outside and does not fix itself:
    - [securecookie_New hashKey blockKey], the codec for a pair of keys
      (a nil slice is [None]);
    - [time_Parse], which is [time.Parse(time.RFC3339Nano, _)];
    - [driver_format_time], the text the database driver stores when a
      [time.Time] is bound to a TEXT column;
    - [range_order], the order in which [range] visits a Go map: some
      enumeration of its entries. *)
Class Environment : Type := mkEnvironment {
  securecookie_New : option bytes → option bytes → SecureCookie;
  time_Parse : string → result Time;
  driver_format_time : Time → string;
  range_order : gmap string value → list (string * value);
  range_order_perm : ∀ m, range_order m ≡ₚ map_to_list m
}.

(** The text the driver stores for a bound argument. *)
Definition driver_text `{Environment} (v : value) : string :=
  match v with
  | VString s => s
  | VTime t => driver_format_time t
  end.

(** ** database/sql *)

(** A transaction: its own view of the table, installed by [Commit]. *)
Record Tx : Type := mkTx { tx_rows : list Row }.

(** The prepared INSERT statement of [Save]. *)
Inductive Stmt : Type := InsertSession.

(** [s.Exec("DELETE ... WHERE id = $1", id)] outside a transaction. *)
Definition DB_Exec_delete (id : bytes) (st : World) : option error * World :=
  match driver_call st with
  | (Some e, st) => (Some e, st)
  | (None, st) => (None, set_table (sql_delete_where_id id (table st)) st)
  end.

(** [s.Query("SELECT id, value ... WHERE key = $1", key)]: the result set
    is fixed when the query runs. *)
Definition DB_Query_id_value (key : string) (st : World)
  : result (list (bytes * string)) * World :=
  match driver_call st with
  | (Some e, st) => (Err e, st)
  | (None, st) => (Ok (sql_select_id_value key (table st)), st)
  end.

(** [s.Query("SELECT key, value ... WHERE id = $1 AND name = $2", id, name)] *)
Definition DB_Query_key_value (id : bytes) (name : string) (st : World)
  : result (list (string * string)) * World :=
  match driver_call st with
  | (Some e, st) => (Err e, st)
  | (None, st) => (Ok (sql_select_key_value id name (table st)), st)
  end.

Definition DB_Begin (st : World) : result Tx * World :=
  match driver_call (log EvBegin st) with
  | (Some e, st) => (Err e, st)
  | (None, st) => (Ok (mkTx (table st)), st)
  end.

Definition Tx_Exec_delete (tx : Tx) (id : bytes) (st : World)
  : result Tx * World :=
  match driver_call st with
  | (Some e, st) => (Err e, st)
  | (None, st) => (Ok (mkTx (sql_delete_where_id id (tx_rows tx))), st)
  end.

Definition Tx_Prepare_insert (tx : Tx) (st : World) : result Stmt * World :=
  match driver_call st with
  | (Some e, st) => (Err e, st)
  | (None, st) => (Ok InsertSession, st)
  end.

Definition Stmt_Exec `{Environment} (prep : Stmt) (tx : Tx)
    (id : bytes) (name : string) (k : string) (v : value) (st : World)
  : result Tx * World :=
  match driver_call st with
  | (Some e, st) => (Err e, st)
  | (None, st) =>
      match sql_insert (mkRow id name k (driver_text v)) (tx_rows tx) with
      | Err e => (Err e, st)
      | Ok t => (Ok (mkTx t), st)
      end
  end.

(** A transaction that fails to commit leaves the table as it was. *)
Definition Tx_Commit (tx : Tx) (st : World) : option error * World :=
  match driver_call (log EvCommit st) with
  | (Some e, st) => (Some e, st)
  | (None, st) => (None, set_table (tx_rows tx) st)
  end.

(** Rolling back drops the transaction's view (db.go ignores the error
    [Rollback] may return). *)
Definition Tx_Rollback (tx : Tx) (st : World) : World := log EvRollback st.

(** ** net/http and locker *)

(** [http.SetCookie(w, cook)] adds a Set-Cookie header. *)
Definition http_SetCookie (w : ResponseWriter) (cook : Cookie)
  : ResponseWriter := w ++ [cook].

(** [type Store struct { *sql.DB; hashKey, blockKey []byte }]; the
    database is the [World]'s table, a nil key is [None]. *)
Record Store : Type := mkStore {
  hashKey : option bytes;
  blockKey : option bytes
}.

(** A [*sessions.Session], as far as the store uses it. *)
Record Session : Type := mkSession {
  ID : string;
  Name : string;
  Values : gmap string value
}.

Definition NewSession (name : string) : Session := mkSession "" name ∅.

(** db.go, lines 232-235. *)
Definition Lock (sess : Session) (st : World) : World := log (EvLock (ID sess)) st.
Definition Unlock (sess : Session) (st : World) : World := log (EvUnlock (ID sess)) st.
Definition RLock (sess : Session) (st : World) : World := log (EvRLock (ID sess)) st.
Definition RUnlock (sess : Session) (st : World) : World := log (EvRUnlock (ID sess)) st.

(** [len] of a slice that may be nil. *)
Definition len (b : option bytes) : nat :=
  match b with
  | None => 0
  | Some l => length l
  end.

Definition not_nil (b : option bytes) : bool :=
  match b with
  | None => false
  | Some _ => true
  end.

(** ** The store *)

Section Store.
Context `{Environment}.

(** db.go, lines 199-201. *)
Definition cookrw (s : Store) : SecureCookie :=
  securecookie_New (hashKey s) (blockKey s).

(** db.go, lines 203-213: returns an empty string if the cookie doesn't
    exist or if there was a problem decoding it. *)
Definition readCookie (s : Store) (r : Request) (cname : string) : string :=
  match Request_Cookie r cname with
  | Ok cook =>
      match Decode (cookrw s) cname (cookie_Value cook) with
      | Ok v => v
      | Err _ => ""
      end
  | Err _ => ""
  end.

(** db.go, lines 215-230: writes the value to the named cookie with
    encryption; nothing is written when the value does not encode. *)
Definition writeCookie (s : Store) (r : Request) (w : ResponseWriter)
    (cname cvalue : string) (st : World) : ResponseWriter * World :=
  match Encode (cookrw s) cname cvalue with
  | Ok encoded =>
      let cook := mkCookie cname encoded "/" true in
      (http_SetCookie w cook, log (EvSetCookie cook) st)
  | Err _ => (w, st)
  end.

(** db.go, lines 165-173: [id] returns either the session id from a
    user's cookie or generates a fresh one if the cookie is inaccessible
    or missing. *)
Definition Store_id (s : Store) (r : Request) (st : World) : string * World :=
  let id := readCookie s r CookieIdName in
  if (String.length id =? 0)%nat then
    let '(k, st) := GenerateRandomKey 64 st in
    (string_of_list_byte k, st)
  else (id, st).

(** db.go, lines 191-197: the keys are installed unless the block key
    is not nil and has none of the AES key lengths. *)
Definition SetKeys (s : Store) (hash block : option bytes) : outcome Store :=
  let validLen :=
    (len block =? 16)%nat || (len block =? 24)%nat || (len block =? 32)%nat in
  if not_nil block && negb validLen then Panicked "invalid block key"
  else Returned (mkStore hash block).

(** db.go, lines 62-80. The loop of [Clean] over the rows of its
    query: [rows.Next()], [rows.Scan(&id, &last)], the parse, and the
    delete of a stale id; a failing [Next] ends the loop and is what
    [rows.Err()] returns. *)
Fixpoint Clean_rows (cutoff : Time) (rows : list (bytes * string))
    (st : World) : option error * World :=
  match driver_call st with
  | (Some e, st) => (Some e, st)
  | (None, st) =>
      match rows with
      | [] => (None, st)
      | (id, last) :: rows =>
          match driver_call st with
          | (Some e, st) => (Some e, st)
          | (None, st) =>
              match time_Parse last with
              | Err e => (Some e, st)
              | Ok lastUp =>
                  if time_Before lastUp cutoff then
                    match DB_Exec_delete id st with
                    | (Some e, st) => (Some e, st)
                    | (None, st) => Clean_rows cutoff rows st
                    end
                  else Clean_rows cutoff rows st
              end
          end
      end
  end.

(** db.go, lines 47-81, between [locker.Lock("clean")] and the deferred
    [locker.Unlock("clean")]. *)
Definition Clean (s : Store) (inactive : Duration) (st : World)
  : option error * World :=
  let st := log (EvLock "clean") st in
  let '(err, st) :=
    match DB_Query_id_value SessionLastUpdated st with
    | (Err e, st) => (Some e, st)
    | (Ok rows, st) =>
        let cutoff :=
          time_Add (time_UTC (time_Now st)) (Duration_neg inactive) in
        Clean_rows cutoff rows st
    end in
  (err, log (EvUnlock "clean") st).

(** db.go, lines 83-87. *)
Definition Delete (s : Store) (sess : Session) (st : World)
  : option error * World :=
  let id := list_byte_of_string (ID sess) in
  DB_Exec_delete id st.

(** db.go, lines 110-119. The loop of [New] over the rows of its query,
    filling [sess.Values]; a failing [Next] ends the loop and is what
    [rows.Err()] returns. *)
Fixpoint New_rows (rows : list (string * string))
    (values : gmap string value) (st : World)
  : result (gmap string value) * World :=
  match driver_call st with
  | (Some e, st) => (Err e, st)
  | (None, st) =>
      match rows with
      | [] => (Ok values, st)
      | (k, v) :: rows =>
          match driver_call st with
          | (Some e, st) => (Err e, st)
          | (None, st) => New_rows rows (<[k := VString v]> values) st
          end
      end
  end.

(** db.go, lines 93-121, between [RLock(sess)] and the deferred
    [RUnlock(sess)]. *)
Definition New (s : Store) (r : Request) (name : string) (st : World)
  : result Session * World :=
  let sess := NewSession name in
  let '(id, st) := Store_id s r st in
  let sess := mkSession id (Name sess) (Values sess) in
  let st := RLock sess st in
  let '(res, st) :=
    match DB_Query_key_value (list_byte_of_string (ID sess)) name st with
    | (Err e, st) => (Err e, st)
    | (Ok rows, st) =>
        match New_rows rows (Values sess) st with
        | (Err e, st) => (Err e, st)
        | (Ok values, st) => (Ok (mkSession (ID sess) (Name sess) values), st)
        end
    end in
  (res, RUnlock sess st).

(** db.go, lines 156-161. The loop of [Save] over [sess.Values]: one
    INSERT per entry, with a rollback as soon as one fails. *)
Fixpoint Save_range (prep : Stmt) (tx : Tx) (id : bytes) (name : string)
    (entries : list (string * value)) (st : World) : result Tx * World :=
  match entries with
  | [] => (Ok tx, st)
  | (k, v) :: entries =>
      match Stmt_Exec prep tx id name k v st with
      | (Err e, st) => (Err e, Tx_Rollback tx st)
      | (Ok tx, st) => Save_range prep tx id name entries st
      end
  end.

(** What [Save] leaves behind: the response, the session (its [Values]
    are written to) and the error returned. *)
Record Saved : Type := mkSaved {
  saved_w : ResponseWriter;
  saved_sess : Session;
  saved_err : option error
}.

(** db.go, lines 131-162: [Save] between [Lock(sess)] and the deferred
    [Unlock(sess)]. *)
Definition Save_locked (s : Store) (r : Request) (w : ResponseWriter)
    (sess : Session) (st : World) : Saved * World :=
  let '(w, st) := writeCookie s r w CookieIdName (ID sess) st in
  let id := list_byte_of_string (ID sess) in
  let sess :=
    mkSession (ID sess) (Name sess)
      (<[SessionLastUpdated := VTime (time_UTC (time_Now st))]> (Values sess)) in
  match DB_Begin st with
  | (Err e, st) => (mkSaved w sess (Some e), st)
  | (Ok tx, st) =>
      match Tx_Exec_delete tx id st with
      | (Err e, st) => (mkSaved w sess (Some e), Tx_Rollback tx st)
      | (Ok tx, st) =>
          match Tx_Prepare_insert tx st with
          | (Err e, st) => (mkSaved w sess (Some e), Tx_Rollback tx st)
          | (Ok prep, st) =>
              match Save_range prep tx id (Name sess)
                      (range_order (Values sess)) st with
              | (Err e, st) => (mkSaved w sess (Some e), st)
              | (Ok tx, st) =>
                  let '(err, st) := Tx_Commit tx st in
                  (mkSaved w sess err, st)
              end
          end
      end
  end.

(** db.go, lines 123-163. *)
Definition Save (s : Store) (r : Request) (w : ResponseWriter)
    (sess : Session) (st : World) : Saved * World :=
  let st := Lock sess st in
  let '(out, st) := Save_locked s r w sess st in
  (out, Unlock sess st).

End Store.

(** ** Notions the properties are stated with *)

Section Notions.
Context `{Environment}.

(** The rows [Save] inserts for the entries of [sess.Values]. *)
Definition session_rows (id : bytes) (name : string)
    (entries : list (string * value)) : list Row :=
  (λ kv, mkRow id name kv.1 (driver_text kv.2)) <$> entries.

(** [sess.Values] once [Save] has stamped it at instant [now]. *)
Definition stamped (now : Time) (values : gmap string value)
  : gmap string value :=
  <[SessionLastUpdated := VTime now]> values.

(** The attribute mapping [Save] stores for [values] at instant [now]:
    [values] as the driver writes it, plus the last-updated marker. *)
Definition stored (now : Time) (values : gmap string value)
  : gmap string string :=
  <[SessionLastUpdated := driver_format_time now]> (driver_text <$> values).

(** The id has a last-updated marker that parses to an instant before
    [cutoff]. *)
Definition stale (cutoff : Time) (id : bytes) (t : list Row) : Prop :=
  ∃ last lastUp,
    (id, last) ∈ sql_select_id_value SessionLastUpdated t ∧
    time_Parse last = Ok lastUp ∧ (lastUp < cutoff)%Z.

(** Every last-updated marker of the id that parses is at or after
    [cutoff]. *)
Definition fresh (cutoff : Time) (id : bytes) (t : list Row) : Prop :=
  ∀ last lastUp,
    (id, last) ∈ sql_select_id_value SessionLastUpdated t →
    time_Parse last = Ok lastUp → (cutoff ≤ lastUp)%Z.

(** The entries' keys are not taken in a table. *)
Definition keys_free (id : bytes) (name : string)
    (entries : list (string * value)) (t : list Row) : Prop :=
  ∀ k, k ∈ entries.*1 → (id, name, k) ∉ row_pk <$> t.

(** What [writeCookie] logs for a session: the cookie it sets, if the
    identity encodes. *)
Definition cookie_events (s : Store) (sess : Session) : list Event :=
  match Encode (cookrw s) CookieIdName (ID sess) with
  | Ok encoded => [EvSetCookie (mkCookie CookieIdName encoded "/" true)]
  | Err _ => []
  end.

(** The id has a marker among [rows] that parses to an instant before
    [cutoff]; no marker of the id among [rows] does. *)
Definition stale_among (cutoff : Time) (id : bytes)
    (rows : list (bytes * string)) : Prop :=
  ∃ last lastUp,
    (id, last) ∈ rows ∧ time_Parse last = Ok lastUp ∧ (lastUp < cutoff)%Z.

Definition fresh_among (cutoff : Time) (id : bytes)
    (rows : list (bytes * string)) : Prop :=
  ∀ last lastUp,
    (id, last) ∈ rows → time_Parse last = Ok lastUp → (cutoff ≤ lastUp)%Z.

(** The cutoff of a [Clean] with threshold [inactive] in a world. *)
Definition Clean_cutoff (inactive : Duration) (st : World) : Time :=
  time_Add (time_UTC (time_Now st)) (Duration_neg inactive).

End Notions.


(** The events a run appended to the log. *)
Definition events_since (st st' : World) : list Event :=
  drop (length (trace st)) (trace st').

(** ** A concrete environment and concrete inputs, for the examples *)

Module Demo.

(** A codec in the manner of securecookie: without a hash key nothing is
    encoded or decoded; with one, a token is the value behind a mark. *)
Definition codec (hash block : option bytes) : SecureCookie :=
  match hash with
  | None =>
      mkSecureCookie (λ _ _, Err "securecookie: hash key is not set")
                     (λ _ _, Err "securecookie: hash key is not set")
  | Some _ =>
      mkSecureCookie
        (λ _ v, Ok (String "#" v))
        (λ _ tok,
           match tok with
           | String "#" v => Ok v
           | _ => Err "securecookie: the value is not valid"
           end)
  end.

(** Instants written in decimal. *)
Definition parse (s : string) : result Time :=
  match DecimalString.NilZero.int_of_string s with
  | Some i => Ok (Z.of_int i)
  | None => Err "parsing time: cannot parse"
  end.

Definition format (t : Time) : string :=
  DecimalString.NilZero.string_of_int (Z.to_int t).

Definition env : Environment :=
  mkEnvironment codec parse format map_to_list (λ m, reflexivity _).

Definition store : Store := mkStore (Some [x01; x02]) None.
Definition keyless : Store := mkStore None None.

Definition alice : string := "alice".
Definition alice_id : bytes := list_byte_of_string alice.

Definition sess : Session :=
  mkSession alice "web" {[ "user" := VString "bob" ]}.

Definition marker (id : bytes) (name : string) (t : Time) : Row :=
  mkRow id name SessionLastUpdated (format t).

(** [24 * time.Hour], and the instant the examples run at. *)
Definition day : Duration := 86400000000000%Z.
Definition now : Time := (20 * day)%Z.

(** A world with the clock at [now]. *)
Definition world (t : list Row) (f : list (option error)) : World :=
  mkWorld t f now (λ n, Byte.x2a) 0 [].

(** A driver that writes instants in a format of its own. *)
Definition format_at (t : Time) : string := String "@" (format t).

Definition env_at : Environment :=
  mkEnvironment codec parse format_at map_to_list (λ m, reflexivity _).

(** A request without cookies, the request that carries the cookie
    [Save] wrote for [alice], and a request whose tracking cookie was
    tampered with. *)
Definition anonymous : Request := mkRequest [].
Definition returning : Request :=
  mkRequest [mkCookie CookieIdName (String "#" alice) "/" true].
Definition tampered : Request :=
  mkRequest [mkCookie CookieIdName "garbage" "/" true].

Definition bob_id : bytes := list_byte_of_string "bob".

(** What earlier saves left: [alice], last updated ten days ago, under
    two names, and [bob], last updated a day ago. *)
Definition prior : list Row :=
  [ marker alice_id "web" (now - 10 * day);
    mkRow alice_id "web" "cart" "3 items";
    mkRow alice_id "admin" "role" "root";
    marker bob_id "web" (now - day);
    mkRow bob_id "web" "user" "bob" ].

Definition connection_reset : error := "driver: connection reset".

(** A save that goes through. *)
Definition saved : Saved * World :=
  Save (H := env) store anonymous [] sess (world prior []).

(** A save whose second insert fails. *)
Definition insert_failed : Saved * World :=
  Save (H := env) store anonymous [] sess
    (world prior [None; None; None; None; Some connection_reset]).

(** A first save for a fresh identity, whose delete fails. *)
Definition first_save_failed : Saved * World :=
  Save (H := env) store anonymous [] sess
    (world [] [None; Some connection_reset]).

(** The same save by a store without a hash key. *)
Definition keyless_save_failed : Saved * World :=
  Save (H := env) keyless anonymous [] sess
    (world [] [None; Some connection_reset]).

(** A save by a store without a hash key that goes through. *)
Definition keyless_saved : Saved * World :=
  Save (H := env) keyless anonymous [] sess (world prior []).

(** A save and then a sweep, with the driver that writes instants in
    its own format. *)
Definition saved_at : Saved * World :=
  Save (H := env_at) store anonymous [] sess (world [] []).
Definition swept_at : option error * World :=
  Clean (H := env_at) store 0%Z saved_at.2.

(** A sweep of what has been inactive for five days. *)
Definition swept : option error * World :=
  Clean (H := env) store (5 * day)%Z (world prior []).

(** A sweep with the least duration as threshold. *)
Definition swept_min : option error * World :=
  Clean (H := env) store Duration_min (world prior []).

(** The request that carries what the save that went through wrote on
    the response. *)
Definition comes_back : Request := mkRequest (saved_w saved.1).

(** A driver that fails the query of a load after two rows. *)
Definition load_failed : result Session * World :=
  New (H := env) store returning "web"
    (world prior [None; None; None; Some connection_reset]).

(** A save whose [Begin] fails, and one whose [Commit] fails. *)
Definition begin_failed : Saved * World :=
  Save (H := env) store anonymous [] sess
    (world prior [Some connection_reset]).
Definition commit_failed : Saved * World :=
  Save (H := env) store anonymous [] sess
    (world prior [None; None; None; None; None; Some connection_reset]).

(** A table where a marker that does not parse sits between [alice]'s
    and [bob]'s, both stale for a threshold of zero. *)
Definition carol_id : bytes := list_byte_of_string "carol".
Definition damaged : list Row :=
  [ marker alice_id "web" (now - 10 * day);
    mkRow alice_id "web" "cart" "3 items";
    mkRow carol_id "web" SessionLastUpdated "yesterday";
    marker bob_id "web" (now - day);
    mkRow bob_id "web" "user" "bob" ].
Definition swept_damaged : option error * World :=
  Clean (H := env) store 0%Z (world damaged []).

(** A sweep right after the save that went through, with threshold
    zero at the instant of the save, and a day later. *)
Definition swept_at_once : option error * World :=
  Clean (H := env) store 0%Z (world (table saved.2) []).
Definition swept_next_day : option error * World :=
  Clean (H := env) store 0%Z
    (mkWorld (table saved.2) [] (now + day)%Z (λ n, Byte.x2a) 0 []).

End Demo.

(** * Properties *)

Section Properties.
Context `{Environment}.

(** ** The driver's fault script *)

Lemma driver_call_quiet st : faults st = [] → driver_call st = (None, st).
Proof. unfold driver_call. by intros ->. Qed.

Lemma driver_call_pass st n fs :
  faults st = replicate (S n) None ++ fs →
  driver_call st = (None, set_faults (replicate n None ++ fs) st).
Proof. unfold driver_call. by intros ->. Qed.

Lemma driver_call_fail st e fs :
  faults st = Some e :: fs → driver_call st = (Some e, set_faults fs st).
Proof. unfold driver_call. by intros ->. Qed.

(** A driver call touches nothing but the script. *)
Lemma driver_call_frame st f st' :
  driver_call st = (f, st') →
  table st' = table st ∧ trace st' = trace st ∧ clock st' = clock st.
Proof. unfold driver_call. destruct (faults st); by intros [= <- <-]. Qed.

(** Case analysis on the next driver call, keeping what it preserves. *)
Ltac driver_step :=
  match goal with
  | |- context [driver_call ?st] =>
      let f := fresh "f" in
      let st' := fresh "st" in
      let E := fresh "Ecall" in
      let Ht := fresh "Htable" in
      let Hl := fresh "Htrace" in
      let Hc := fresh "Hclock" in
      destruct (driver_call st) as [f st'] eqn:E;
      destruct (driver_call_frame _ _ _ E) as (Ht & Hl & Hc);
      simpl in Ht, Hl, Hc;
      destruct f as [?e|]; simpl
  | H : context [driver_call ?st] |- _ =>
      let f := fresh "f" in
      let st' := fresh "st" in
      let E := fresh "Ecall" in
      let Ht := fresh "Htable" in
      let Hl := fresh "Htrace" in
      let Hc := fresh "Hclock" in
      destruct (driver_call st) as [f st'] eqn:E;
      destruct (driver_call_frame _ _ _ E) as (Ht & Hl & Hc);
      simpl in Ht, Hl, Hc;
      destruct f as [?e|]; simpl in H
  end.

(** ** The SQL statements *)

Lemma rows_of_id_delete_same id t :
  rows_of_id id (sql_delete_where_id id t) = [].
Proof.
  unfold rows_of_id, sql_delete_where_id.
  induction t as [|r t IH]; [done|].
  rewrite !filter_cons. case_decide; [|done].
  rewrite filter_cons. by case_decide.
Qed.

Lemma rows_of_id_delete_other id id' t :
  id' ≠ id → rows_of_id id' (sql_delete_where_id id t) = rows_of_id id' t.
Proof.
  intros Hne. unfold rows_of_id, sql_delete_where_id.
  induction t as [|r t IH]; [done|].
  rewrite !filter_cons. case_decide.
  - rewrite filter_cons. case_decide; by rewrite IH.
  - case_decide; [|done]. exfalso. naive_solver congruence.
Qed.

Lemma delete_no_rows id t :
  rows_of_id id t = [] → sql_delete_where_id id t = t.
Proof.
  unfold rows_of_id, sql_delete_where_id.
  induction t as [|r t IH]; [done|].
  rewrite !filter_cons. case_decide; [done|].
  intros Ht. case_decide; [|done]. by rewrite IH.
Qed.

Lemma select_key_value_rows_of_id id name t :
  rows_of_id id t = [] → sql_select_key_value id name t = [].
Proof.
  unfold rows_of_id, sql_select_key_value.
  induction t as [|r t IH]; [done|].
  rewrite !filter_cons. case_decide; [done|].
  intros Ht. case_decide as Hboth; [by destruct Hboth|]. by apply IH.
Qed.

(** ** The inserts of [Save] *)

Lemma Save_range_frame prep id name entries : ∀ tx st res st',
  Save_range prep tx id name entries st = (res, st') →
  table st' = table st ∧ clock st' = clock st.
Proof.
  induction entries as [|[k v] entries IH]; intros tx st res st'; simpl.
  { by intros [= <- <-]. }
  unfold Stmt_Exec. driver_step.
  - intros [= <- <-]. simpl. by rewrite Htable, Hclock.
  - destruct (sql_insert _ _) as [t|e]; simpl.
    + intros Hrest. apply IH in Hrest as [-> ->]. by rewrite Htable, Hclock.
    + intros [= <- <-]. simpl. by rewrite Htable, Hclock.
Qed.

(** When every insert goes through, the transaction holds the rows of
    the entries after what it held, and nothing was logged. *)
Lemma Save_range_Ok prep id name entries : ∀ tx st tx' st',
  Save_range prep tx id name entries st = (Ok tx', st') →
  tx_rows tx' = tx_rows tx ++ session_rows id name entries ∧
  trace st' = trace st.
Proof.
  induction entries as [|[k v] entries IH]; intros tx st tx' st'; simpl.
  { intros [= <- <-]. by rewrite app_nil_r. }
  unfold Stmt_Exec. driver_step; [done|].
  unfold sql_insert. case_decide; simpl; [done|].
  intros Hrest. apply IH in Hrest as [-> ->]. simpl.
  by rewrite <- app_assoc, Htrace.
Qed.

(** When an insert fails, the rollback is the one call logged. *)
Lemma Save_range_Err prep id name entries : ∀ tx st e st',
  Save_range prep tx id name entries st = (Err e, st') →
  trace st' = trace st ++ [EvRollback].
Proof.
  induction entries as [|[k v] entries IH]; intros tx st e' st'; simpl.
  { done. }
  unfold Stmt_Exec. driver_step.
  - intros [= <- <-]. simpl. by rewrite Htrace.
  - destruct (sql_insert _ _) as [t|e]; simpl.
    + intros Hrest. apply IH in Hrest as ->. by rewrite Htrace.
    + intros [= <- <-]. simpl. by rewrite Htrace.
Qed.

Lemma keys_free_step id name k v entries t :
  NoDup (k :: entries.*1) →
  keys_free id name ((k, v) :: entries) t →
  ((id, name, k) ∉ row_pk <$> t) ∧
  keys_free id name entries (t ++ [mkRow id name k (driver_text v)]).
Proof.
  rewrite NoDup_cons. intros [Hk Hnd] Hfree. split.
  - apply Hfree. simpl. left.
  - intros k' Hk'. rewrite fmap_app, elem_of_app. intros [Hin|Hin].
    + revert Hin. apply Hfree. simpl. by right.
    + apply list_elem_of_singleton in Hin. unfold row_pk in Hin. simpl in Hin.
      congruence.
Qed.


(** With distinct keys, none of them taken, the first failure the driver
    reports ends the loop with that error and a rollback. *)
Lemma Save_range_fault prep id name entries : ∀ tx st n e fs,
  faults st = replicate n None ++ Some e :: fs →
  n < length entries →
  NoDup (entries.*1) →
  keys_free id name entries (tx_rows tx) →
  Save_range prep tx id name entries st
  = (Err e, log EvRollback (set_faults fs st)).
Proof.
  induction entries as [|[k v] entries IH];
    intros tx st n e fs Hf Hn Hnd Hfree; simpl in *.
  { lia. }
  unfold Stmt_Exec. destruct n as [|n].
  - by rewrite (driver_call_fail _ _ _ Hf).
  - rewrite (driver_call_pass _ _ _ Hf).
    destruct (keys_free_step _ _ _ _ _ _ Hnd Hfree) as [Hk Hfree'].
    unfold sql_insert. rewrite decide_False by done.
    rewrite (IH _ _ n e fs); simpl; try done.
    + lia.
    + by apply NoDup_cons in Hnd as [_ ?].
Qed.

(** ** [Save] as a whole *)

Lemma writeCookie_frame s r w cname cvalue st w' st' :
  writeCookie s r w cname cvalue st = (w', st') →
  table st' = table st ∧ faults st' = faults st ∧ clock st' = clock st.
Proof.
  unfold writeCookie. destruct (Encode _ _ _); by intros [= <- <-].
Qed.

Lemma range_order_NoDup (m : gmap string value) : NoDup ((range_order m).*1).
Proof.
  rewrite (range_order_perm m). apply NoDup_fst_map_to_list.
Qed.

Lemma range_order_length (m : gmap string value) :
  length (range_order m) = size m.
Proof.
  rewrite (range_order_perm m). apply length_map_to_list.
Qed.

Lemma keys_free_after_delete id name entries t :
  keys_free id name entries (sql_delete_where_id id t).
Proof.
  intros k _ Hin. apply list_elem_of_fmap in Hin as (row & Hpk & Hrow).
  apply list_elem_of_filter in Hrow as [Hne _].
  unfold row_pk in Hpk. congruence.
Qed.

(** What [Save] hands back besides the error: the response as
    [writeCookie] left it, and the session with its values stamped. *)
Lemma Save_saved s r w sess st out st' :
  Save s r w sess st = (out, st') →
  saved_w out = (writeCookie s r w CookieIdName (ID sess) (Lock sess st)).1 ∧
  saved_sess out
  = mkSession (ID sess) (Name sess) (stamped (clock st) (Values sess)).
Proof.
  unfold Save, Save_locked.
  destruct (writeCookie _ _ _ _ _ _) as [w1 st1] eqn:Ew.
  destruct (writeCookie_frame _ _ _ _ _ _ _ _ Ew) as (_ & _ & Hc1).
  unfold time_UTC, time_Now. rewrite Hc1. simpl.
  destruct (DB_Begin st1) as [[tx|e] st2]; [|by intros [= <- <-]].
  destruct (Tx_Exec_delete _ _ _) as [[tx1|e] st3]; [|by intros [= <- <-]].
  destruct (Tx_Prepare_insert _ _) as [[prep|e] st4]; [|by intros [= <- <-]].
  destruct (Save_range _ _ _ _ _ _) as [[tx2|e] st5]; [|by intros [= <- <-]].
  destruct (Tx_Commit _ _) as [err st6]. by intros [= <- <-].
Qed.

(** A [Save] that returns no error leaves the table without the rows
    the id had, and with the rows of the stamped values. *)
Lemma Save_Ok_table s r w sess st out st' :
  Save s r w sess st = (out, st') →
  saved_err out = None →
  table st'
  = sql_delete_where_id (list_byte_of_string (ID sess)) (table st)
    ++ session_rows (list_byte_of_string (ID sess)) (Name sess)
         (range_order (stamped (clock st) (Values sess))).
Proof.
  unfold Save, Save_locked.
  destruct (writeCookie _ _ _ _ _ _) as [w1 st1] eqn:Ew.
  destruct (writeCookie_frame _ _ _ _ _ _ _ _ Ew) as (Ht1 & _ & Hc1).
  unfold time_UTC, time_Now. rewrite Hc1. simpl in *.
  unfold DB_Begin. driver_step; [by intros [= <- <-]|].
  unfold Tx_Exec_delete. driver_step; [by intros [= <- <-]|].
  unfold Tx_Prepare_insert. driver_step; [by intros [= <- <-]|].
  destruct (Save_range _ _ _ _ _ _) as [[tx2|e] st5] eqn:Er;
    [|by intros [= <- <-]].
  apply Save_range_Ok in Er as [Hrows _]. simpl in Hrows.
  unfold Tx_Commit. driver_step; [by intros [= <- <-]|].
  intros [= <- <-] _. simpl. by rewrite Hrows, Htable, Ht1.
Qed.

(** A [Save] that returns an error leaves the table as it was. *)
Lemma Save_Err_table s r w sess st out st' e :
  Save s r w sess st = (out, st') →
  saved_err out = Some e →
  table st' = table st.
Proof.
  unfold Save, Save_locked.
  destruct (writeCookie _ _ _ _ _ _) as [w1 st1] eqn:Ew.
  destruct (writeCookie_frame _ _ _ _ _ _ _ _ Ew) as (Ht1 & _ & Hc1).
  simpl in *.
  unfold DB_Begin. driver_step.
  { intros [= <- <-] _. simpl. congruence. }
  unfold Tx_Exec_delete. driver_step.
  { intros [= <- <-] _. simpl. congruence. }
  unfold Tx_Prepare_insert. driver_step.
  { intros [= <- <-] _. simpl. congruence. }
  destruct (Save_range _ _ _ _ _ _) as [[tx2|e'] st5] eqn:Er.
  - apply Save_range_frame in Er as [Ht5 _].
    unfold Tx_Commit. driver_step.
    + intros [= <- <-] _. simpl. congruence.
    + by intros [= <- <-].
  - apply Save_range_frame in Er as [Ht5 _].
    intros [= <- <-] _. simpl. congruence.
Qed.


(** The failure of the delete, of the prepare or of an insert: the
    driver's [n]-th call after [Begin] fails, [1 ≤ n], and the inserts
    are calls 3, 4, ... *)
Lemma Save_fault s r w sess st n e fs :
  faults st = replicate n None ++ Some e :: fs →
  1 ≤ n ≤ 2 + size (stamped (clock st) (Values sess)) →
  ∃ out st',
    Save s r w sess st = (out, st') ∧
    saved_err out = Some e ∧
    faults st' = fs ∧
    trace st'
    = trace (writeCookie s r w CookieIdName (ID sess) (Lock sess st)).2
      ++ [EvBegin; EvRollback; EvUnlock (ID sess)].
Proof.
  intros Hf Hn. unfold Save, Save_locked.
  destruct (writeCookie _ _ _ _ _ _) as [w1 st1] eqn:Ew.
  destruct (writeCookie_frame _ _ _ _ _ _ _ _ Ew) as (Ht1 & Hf1 & Hc1).
  simpl in Hf1, Hc1. rewrite Hf in Hf1.
  unfold time_UTC, time_Now. rewrite Hc1.
  unfold DB_Begin, Tx_Exec_delete, Tx_Prepare_insert.
  destruct n as [|n]; [lia|].
  rewrite (driver_call_pass (log EvBegin st1) n (Some e :: fs)) by done.
  simpl. destruct n as [|n].
  { rewrite (driver_call_fail _ e fs) by done.
    eexists _, _. split; [done|]. simpl. by rewrite <- !app_assoc. }
  rewrite (driver_call_pass _ n (Some e :: fs)) by done.
  simpl. destruct n as [|n].
  { rewrite (driver_call_fail _ e fs) by done.
    eexists _, _. split; [done|]. simpl. by rewrite <- !app_assoc. }
  rewrite (driver_call_pass _ n (Some e :: fs)) by done.
  simpl. rewrite (Save_range_fault _ _ _ _ _ _ n e fs); simpl;
    [| done | rewrite range_order_length; unfold stamped in Hn; lia
     | apply range_order_NoDup | apply keys_free_after_delete ].
  eexists _, _. split; [done|]. simpl. by rewrite <- !app_assoc.
Qed.

(** ** [New] *)

Lemma Store_id_cookie s r st v :
  readCookie s r CookieIdName = v → v ≠ "" → Store_id s r st = (v, st).
Proof.
  intros Hv Hne. unfold Store_id. rewrite Hv. by destruct v.
Qed.

Lemma Store_id_frame s r st v st' :
  Store_id s r st = (v, st') →
  table st' = table st ∧ faults st' = faults st ∧ trace st' = trace st.
Proof.
  unfold Store_id. destruct (String.length _ =? 0)%nat; by intros [= <- <-].
Qed.

(** The loop of [New], when it gets to the end, has assigned the rows
    to the values in the order of the result set. *)
Lemma New_rows_Ok rows : ∀ values st m st',
  New_rows rows values st = (Ok m, st') →
  m = foldl (λ m kv, <[kv.1 := VString kv.2]> m) values rows.
Proof.
  induction rows as [|[k v] rows IH]; intros values st m st'; simpl.
  - driver_step; [done|]. by intros [= <- <-].
  - driver_step; [done|]. driver_step; [done|]. apply IH.
Qed.

Lemma New_rows_quiet rows : ∀ values st,
  faults st = [] →
  New_rows rows values st
  = (Ok (foldl (λ m kv, <[kv.1 := VString kv.2]> m) values rows), st).
Proof.
  induction rows as [|[k v] rows IH]; intros values st Hq; simpl.
  - by rewrite driver_call_quiet.
  - rewrite driver_call_quiet by done. simpl.
    rewrite driver_call_quiet by done. by apply IH.
Qed.

(** Rows with distinct keys load as the mapping they list. *)
Lemma foldl_insert_NoDup (rows : list (string * string)) :
  ∀ values : gmap string value,
  NoDup (rows.*1) →
  foldl (λ m kv, <[kv.1 := VString kv.2]> m) values rows
  = (VString <$> (list_to_map rows : gmap string string)) ∪ values.
Proof.
  induction rows as [|[k v] rows IH]; intros values Hnd; simpl.
  - by rewrite fmap_empty, (left_id_L ∅ (∪)).
  - rewrite fmap_cons in Hnd. apply NoDup_cons in Hnd as [Hk Hnd].
    simpl in Hk. rewrite IH by done.
    rewrite fmap_insert, <- insert_union_l.
    symmetry. apply insert_union_r. rewrite lookup_fmap.
    by rewrite (not_elem_of_list_to_map_1 _ _ Hk).
Qed.

Lemma load_permutation (rows : list (string * string))
    (m : gmap string string) :
  rows ≡ₚ map_to_list m →
  foldl (λ m kv, <[kv.1 := VString kv.2]> m) ∅ rows = VString <$> m.
Proof.
  intros Hperm.
  assert (NoDup (rows.*1)) as Hnd.
  { rewrite Hperm. apply NoDup_fst_map_to_list. }
  rewrite foldl_insert_NoDup by done.
  rewrite (right_id_L ∅ (∪)).
  by rewrite (list_to_map_proper _ _ Hnd Hperm), list_to_map_to_list.
Qed.

(** What a [New] that returns a session has loaded. *)
Lemma New_Ok s r name st sess st' :
  New s r name st = (Ok sess, st') →
  ID sess = (Store_id s r st).1 ∧
  Name sess = name ∧
  Values sess
  = foldl (λ m kv, <[kv.1 := VString kv.2]> m) ∅
      (sql_select_key_value (list_byte_of_string (Store_id s r st).1) name
         (table st)).
Proof.
  unfold New. destruct (Store_id s r st) as [id st1] eqn:Eid.
  destruct (Store_id_frame _ _ _ _ _ Eid) as (Ht1 & _ & _). simpl.
  unfold DB_Query_key_value. driver_step; [done|].
  destruct (New_rows _ _ _) as [[m|e] st3] eqn:Erows; [|done].
  apply New_rows_Ok in Erows as ->. intros [= <- <-]. simpl.
  by rewrite Htable, Ht1.
Qed.

Lemma New_quiet s r name st :
  faults st = [] → ∃ sess st', New s r name st = (Ok sess, st').
Proof.
  intros Hq. unfold New. destruct (Store_id s r st) as [id st1] eqn:Eid.
  destruct (Store_id_frame _ _ _ _ _ Eid) as (_ & Hf1 & _).
  rewrite Hq in Hf1. simpl. unfold DB_Query_key_value.
  rewrite driver_call_quiet by done.
  rewrite New_rows_quiet by done. by eexists _, _.
Qed.

(** ** The rows of a saved session *)

Lemma select_key_value_app id name t1 t2 :
  sql_select_key_value id name (t1 ++ t2)
  = sql_select_key_value id name t1 ++ sql_select_key_value id name t2.
Proof. unfold sql_select_key_value. by rewrite filter_app, fmap_app. Qed.

Lemma rows_of_id_app id t1 t2 :
  rows_of_id id (t1 ++ t2) = rows_of_id id t1 ++ rows_of_id id t2.
Proof. unfold rows_of_id. by rewrite filter_app. Qed.

Lemma select_session_rows sid name entries :
  sql_select_key_value sid name (session_rows sid name entries)
  = prod_map id driver_text <$> entries.
Proof.
  unfold sql_select_key_value, session_rows.
  induction entries as [|[k v] entries IH]; [done|].
  rewrite fmap_cons, filter_cons. simpl.
  rewrite decide_True by done. rewrite fmap_cons. simpl. by rewrite IH.
Qed.

Lemma select_session_rows_other_name id name name' entries :
  name' ≠ name →
  sql_select_key_value id name' (session_rows id name entries) = [].
Proof.
  intros Hne. unfold sql_select_key_value, session_rows.
  induction entries as [|[k v] entries IH]; [done|].
  rewrite fmap_cons, filter_cons. simpl.
  rewrite decide_False; [done|]. intros [_ ?]. congruence.
Qed.

Lemma rows_of_id_session_rows_other id id' name entries :
  id' ≠ id → rows_of_id id' (session_rows id name entries) = [].
Proof.
  intros Hne. unfold rows_of_id, session_rows.
  induction entries as [|[k v] entries IH]; [done|].
  rewrite fmap_cons, filter_cons. simpl.
  rewrite decide_False; [done|]. congruence.
Qed.

Lemma session_rows_name id name entries row :
  row ∈ session_rows id name entries → row_id row = id ∧ row_name row = name.
Proof.
  unfold session_rows. intros Hin.
  apply list_elem_of_fmap in Hin as (kv & -> & _). done.
Qed.

Lemma stored_stamped now (values : gmap string value) :
  driver_text <$> stamped now values = stored now values.
Proof. unfold stamped, stored. by rewrite fmap_insert. Qed.

(** The rows a successful [Save] leaves for its (id, name) list the
    stored mapping. *)
Lemma Save_Ok_select s r w sess st out st' :
  Save s r w sess st = (out, st') →
  saved_err out = None →
  sql_select_key_value (list_byte_of_string (ID sess)) (Name sess) (table st')
  ≡ₚ map_to_list (stored (clock st) (Values sess)).
Proof.
  intros Hsave Hok. rewrite (Save_Ok_table _ _ _ _ _ _ _ Hsave Hok).
  rewrite select_key_value_app.
  rewrite select_key_value_rows_of_id by apply rows_of_id_delete_same.
  rewrite select_session_rows. simpl.
  rewrite (range_order_perm _), <- stored_stamped.
  by rewrite map_to_list_fmap.
Qed.

(** C1. After a successful [Save] of a session whose in-memory values
    are [Values sess], the rows stored for (id, name) are exactly the
    entries of those values as the driver writes them plus the
    last-updated marker ([stored]), whatever the table held before; and a
    [New] that resolves the same id and runs for the same name on that
    table returns exactly that mapping, which it does whenever the driver
    reports no failure. *)
Theorem Save_then_New_full_replace (s : Store) (r : Request)
    (w : ResponseWriter) (sess : Session) (st : World)
    (out : Saved) (st' : World) :
  Save s r w sess st = (out, st') →
  saved_err out = None →
  let id := list_byte_of_string (ID sess) in
  let M := stored (clock st) (Values sess) in
  sql_select_key_value id (Name sess) (table st') ≡ₚ map_to_list M ∧
  ∀ (s2 : Store) (r2 : Request) (st2 : World),
    table st2 = table st' →
    (Store_id s2 r2 st2).1 = ID sess →
    (∀ sess2 st3,
       New s2 r2 (Name sess) st2 = (Ok sess2, st3) →
       ID sess2 = ID sess ∧ Name sess2 = Name sess ∧
       Values sess2 = VString <$> M) ∧
    (faults st2 = [] →
     ∃ sess2 st3, New s2 r2 (Name sess) st2 = (Ok sess2, st3)).
Proof.
  intros Hsave Hok id M.
  pose proof (Save_Ok_select _ _ _ _ _ _ _ Hsave Hok) as Hrows.
  split; [done|].
  intros s2 r2 st2 Ht2 Hid. split; [|apply New_quiet].
  intros sess2 st3 Hnew. apply New_Ok in Hnew as (HID & Hname & Hvalues).
  rewrite Hid in HID, Hvalues. rewrite Ht2 in Hvalues.
  repeat split; [done..|]. rewrite Hvalues. by apply load_permutation.
Qed.

(** C9. The delete inside [Save] is by id alone: after a successful
    [Save], every row of the id carries the saved session's name, so
    the rows the id held under any other name are gone, while the rows
    of other ids are as they were. *)
Theorem Save_destroys_other_names (s : Store) (r : Request)
    (w : ResponseWriter) (sess : Session) (st : World)
    (out : Saved) (st' : World) :
  Save s r w sess st = (out, st') →
  saved_err out = None →
  let id := list_byte_of_string (ID sess) in
  (∀ row, row ∈ table st' → row_id row = id → row_name row = Name sess) ∧
  (∀ other, other ≠ Name sess → sql_select_key_value id other (table st') = []) ∧
  (∀ id', id' ≠ id → rows_of_id id' (table st') = rows_of_id id' (table st)).
Proof.
  intros Hsave Hok id. rewrite (Save_Ok_table _ _ _ _ _ _ _ Hsave Hok).
  fold id. split; [|split].
  - intros row Hin Hrow. apply elem_of_app in Hin as [Hin|Hin].
    + apply list_elem_of_filter in Hin as [Hne _]. done.
    + by apply session_rows_name in Hin as [_ ?].
  - intros other Hother. rewrite select_key_value_app.
    rewrite select_key_value_rows_of_id by apply rows_of_id_delete_same.
    by rewrite select_session_rows_other_name.
  - intros id' Hid'. rewrite rows_of_id_app.
    rewrite rows_of_id_delete_other by done.
    rewrite rows_of_id_session_rows_other by done. apply app_nil_r.
Qed.

(** ** The log of a [Save] *)

Lemma events_since_app st st' evs :
  trace st' = trace st ++ evs → events_since st st' = evs.
Proof. unfold events_since. intros ->. by rewrite drop_app_length. Qed.

Lemma writeCookie_trace s r w sess st :
  trace (writeCookie s r w CookieIdName (ID sess) st).2
  = trace st ++ cookie_events s sess.
Proof.
  unfold writeCookie, cookie_events.
  destruct (Encode _ _ _); simpl; [done|]. by rewrite app_nil_r.
Qed.

Lemma Save_range_trace prep id name entries tx st res st' :
  Save_range prep tx id name entries st = (res, st') →
  ∃ evs, trace st' = trace st ++ evs.
Proof.
  destruct res as [tx'|e]; intros Hr.
  - apply Save_range_Ok in Hr as [_ ->]. exists []. by rewrite app_nil_r.
  - apply Save_range_Err in Hr as ->. by eexists.
Qed.

(** [Save] takes the lock, lets [writeCookie] do its work, and only
    then begins the transaction. *)
Lemma Save_begins_after_cookie s r w sess st out st' :
  Save s r w sess st = (out, st') →
  ∃ rest,
    events_since st st'
    = EvLock (ID sess) :: cookie_events s sess ++ EvBegin :: rest.
Proof.
  unfold Save, Save_locked.
  pose proof (writeCookie_trace s r w sess (Lock sess st)) as Hw.
  destruct (writeCookie _ _ _ _ _ _) as [w1 st1] eqn:Ew. simpl in Hw.
  assert (∀ st2 rest,
    trace st2 = trace st1 ++ EvBegin :: rest →
    ∃ rest', events_since st (Unlock sess st2)
             = EvLock (ID sess) :: cookie_events s sess ++ EvBegin :: rest')
    as Hshape.
  { intros st2 rest Hst2. eexists. apply events_since_app. simpl.
    by rewrite Hst2, Hw, <- !app_assoc. }
  unfold DB_Begin. driver_step.
  { intros [= <- <-]. by apply (Hshape _ []). }
  unfold Tx_Exec_delete. driver_step.
  { intros [= <- <-]. apply (Hshape _ [EvRollback]). simpl.
    by rewrite Htrace0, Htrace, <- app_assoc. }
  unfold Tx_Prepare_insert. driver_step.
  { intros [= <- <-]. apply (Hshape _ [EvRollback]). simpl.
    by rewrite Htrace1, Htrace0, Htrace, <- app_assoc. }
  destruct (Save_range _ _ _ _ _ _) as [[tx2|e'] st5] eqn:Er;
    apply Save_range_trace in Er as [evs Hevs].
  - unfold Tx_Commit. driver_step; intros [= <- <-];
      apply (Hshape _ (evs ++ [EvCommit])); simpl;
      rewrite ?Htrace2; simpl;
      by rewrite Hevs, Htrace1, Htrace0, Htrace, <- !app_assoc.
  - intros [= <- <-]. apply (Hshape _ evs).
    by rewrite Hevs, Htrace1, Htrace0, Htrace, <- !app_assoc.
Qed.

(** ** [Save] does not depend on the codec *)





(** ** Failure, cookie and stamp of a [Save] *)

(** C4. The driver script [replicate n None ++ Some e :: fs] makes the
    [n]-th driver call after [Begin] fail with [e]: the delete for
    [n = 1], the prepare for [n = 2], an insert for [3 ≤ n] up to the
    number of values. Then [Save] returns [e], the transaction it began
    is rolled back and not committed, and the table is what it was, so
    every reader's query finds the rows it found before. *)
Theorem Save_failed_step_rolls_back (s : Store) (r : Request)
    (w : ResponseWriter) (sess : Session) (st : World)
    (n : nat) (e : error) (fs : list (option error)) :
  faults st = replicate n None ++ Some e :: fs →
  1 ≤ n ≤ 2 + size (stamped (clock st) (Values sess)) →
  ∃ out st',
    Save s r w sess st = (out, st') ∧
    saved_err out = Some e ∧
    events_since st st'
    = EvLock (ID sess) :: cookie_events s sess
      ++ [EvBegin; EvRollback; EvUnlock (ID sess)] ∧
    table st' = table st ∧
    ∀ id name,
      sql_select_key_value id name (table st')
      = sql_select_key_value id name (table st).
Proof.
  intros Hf Hn.
  destruct (Save_fault s r w sess st n e fs Hf Hn)
    as (out & st' & Hsave & Herr & _ & Htrace).
  exists out, st'. split; [done|]. split; [done|].
  pose proof (Save_Err_table _ _ _ _ _ _ _ _ Hsave Herr) as Htable.
  split; [|split; [done|]].
  - apply events_since_app. rewrite Htrace, writeCookie_trace. simpl.
    by rewrite <- !app_assoc.
  - intros id name. by rewrite Htable.
Qed.

(** C5, as the code has it. When the identity encodes, [Save] sets the
    cookie on the response, and does so before it begins the
    transaction, whatever becomes of the transaction; a [Save] that
    then fails leaves the table as it was, so an id that had no rows
    still has none while the response carries its cookie. *)
Theorem Save_sets_cookie_before_transaction (s : Store) (r : Request)
    (w : ResponseWriter) (sess : Session) (st : World)
    (encoded : string) (out : Saved) (st' : World) :
  Encode (cookrw s) CookieIdName (ID sess) = Ok encoded →
  Save s r w sess st = (out, st') →
  let cook := mkCookie CookieIdName encoded "/" true in
  saved_w out = w ++ [cook] ∧
  (∃ rest,
     events_since st st'
     = EvLock (ID sess) :: EvSetCookie cook :: EvBegin :: rest) ∧
  ∀ e, saved_err out = Some e →
       table st' = table st ∧
       (rows_of_id (list_byte_of_string (ID sess)) (table st) = [] →
        rows_of_id (list_byte_of_string (ID sess)) (table st') = []).
Proof.
  intros Henc Hsave cook.
  destruct (Save_saved _ _ _ _ _ _ _ Hsave) as [Hw _].
  destruct (Save_begins_after_cookie _ _ _ _ _ _ _ Hsave) as [rest Hev].
  unfold cookie_events in Hev. unfold writeCookie in Hw.
  rewrite Henc in Hw, Hev. simpl in Hw, Hev.
  split; [done|]. split; [by exists rest|].
  intros e Herr.
  pose proof (Save_Err_table _ _ _ _ _ _ _ _ Hsave Herr) as Htable.
  split; [done|]. by rewrite Htable.
Qed.


(** What [Save] stamps: the reserved key of the in-memory values gets
    the current instant as a time value; when [Save] succeeds, the
    marker row of the session holds the text the driver writes for that
    instant, which is the text the query of [Clean] reads. *)
Lemma Save_stamps_time_value (s : Store) (r : Request)
    (w : ResponseWriter) (sess : Session) (st : World)
    (out : Saved) (st' : World) :
  Save s r w sess st = (out, st') →
  Values (saved_sess out) !! SessionLastUpdated = Some (VTime (clock st)) ∧
  (saved_err out = None →
   (SessionLastUpdated, driver_format_time (clock st))
     ∈ sql_select_key_value (list_byte_of_string (ID sess)) (Name sess)
         (table st') ∧
   (list_byte_of_string (ID sess), driver_format_time (clock st))
     ∈ sql_select_id_value SessionLastUpdated (table st')).
Proof.
  intros Hsave. destruct (Save_saved _ _ _ _ _ _ _ Hsave) as [_ ->]. simpl.
  split; [apply lookup_insert_eq|]. intros Hok.
  assert ((SessionLastUpdated, driver_format_time (clock st))
            ∈ sql_select_key_value (list_byte_of_string (ID sess))
                (Name sess) (table st')) as Hin.
  { rewrite (Save_Ok_select _ _ _ _ _ _ _ Hsave Hok).
    apply elem_of_map_to_list. apply lookup_insert_eq. }
  split; [done|].
  unfold sql_select_key_value in Hin. unfold sql_select_id_value.
  apply list_elem_of_fmap in Hin as (row & [= Hk Hv] & Hrow).
  apply list_elem_of_filter in Hrow as [[Hid Hname] Hrow].
  apply list_elem_of_fmap. exists row. split; [by rewrite Hid, Hv|].
  apply list_elem_of_filter. done.
Qed.

(** ** [Delete] *)

Lemma DB_Exec_delete_Ok id st st' :
  DB_Exec_delete id st = (None, st') →
  table st' = sql_delete_where_id id (table st).
Proof.
  unfold DB_Exec_delete. driver_step; [done|].
  intros [= <-]. simpl. by rewrite Htable.
Qed.

Lemma DB_Exec_delete_quiet id st :
  faults st = [] →
  DB_Exec_delete id st
  = (None, set_table (sql_delete_where_id id (table st)) st).
Proof. intros Hq. unfold DB_Exec_delete. by rewrite driver_call_quiet. Qed.

(** C8. With a driver that reports no failure, [Delete] returns no
    error, and neither does a second [Delete] of the same session, which
    finds nothing to remove; a [Delete] of an id without rows changes
    nothing. After any [Delete] that returned no error the id has no
    row left, under any name. *)
Theorem Delete_idempotent (s : Store) (sess : Session) (st : World) :
  let id := list_byte_of_string (ID sess) in
  (faults st = [] →
   ∃ st1 st2,
     Delete s sess st = (None, st1) ∧
     Delete s sess st1 = (None, st2) ∧
     table st2 = table st1 ∧
     (rows_of_id id (table st) = [] → table st1 = table st)) ∧
  (∀ st', Delete s sess st = (None, st') →
          rows_of_id id (table st') = [] ∧
          ∀ name, sql_select_key_value id name (table st') = []).
Proof.
  intros id. unfold Delete. fold id. split.
  - intros Hq.
    set (st1 := set_table (sql_delete_where_id id (table st)) st).
    exists st1, (set_table (sql_delete_where_id id (table st1)) st1).
    rewrite !DB_Exec_delete_quiet by done.
    split; [done|]. split; [done|]. simpl. split.
    + apply delete_no_rows, rows_of_id_delete_same.
    + apply delete_no_rows.
  - intros st' Hdel. apply DB_Exec_delete_Ok in Hdel as ->.
    split; [apply rows_of_id_delete_same|].
    intros name. apply select_key_value_rows_of_id, rows_of_id_delete_same.
Qed.

(** ** [Clean] *)

Lemma rows_of_id_delete id id' t :
  rows_of_id id (sql_delete_where_id id' t)
  = if decide (id = id') then [] else rows_of_id id t.
Proof.
  case_decide as Hid.
  - subst. apply rows_of_id_delete_same.
  - by apply rows_of_id_delete_other.
Qed.

(** The sweep only ever removes all the rows of an id. *)
Lemma Clean_rows_shrinks cutoff rows : ∀ st err st' id,
  Clean_rows cutoff rows st = (err, st') →
  rows_of_id id (table st') = rows_of_id id (table st) ∨
  rows_of_id id (table st') = [].
Proof.
  induction rows as [|[id0 last0] rows IH]; intros st err st' id; simpl.
  - driver_step; intros [= <- <-]; left; by rewrite Htable.
  - driver_step; [intros [= <- <-]; left; by rewrite Htable|].
    driver_step; [intros [= <- <-]; left; congruence|].
    destruct (time_Parse last0) as [lastUp|e];
      [|intros [= <- <-]; left; congruence].
    destruct (time_Before lastUp cutoff).
    + destruct (DB_Exec_delete id0 st1) as [[e|] st2] eqn:Edel.
      * unfold DB_Exec_delete in Edel. driver_step; [|done].
        injection Edel as <- <-. intros [= <- <-]. left. congruence.
      * apply DB_Exec_delete_Ok in Edel. intros Hrest.
        apply (IH _ _ _ id) in Hrest as [Hrest|Hrest]; [|by right].
        rewrite Hrest, Edel, rows_of_id_delete, Htable0, Htable.
        case_decide; [by right|by left].
    + intros Hrest. apply (IH _ _ _ id) in Hrest as [Hrest|Hrest]; [|by right].
      left. congruence.
Qed.

(** A sweep that gets to the end has removed every id with a marker
    before the cutoff, and has left alone every id without one. *)
Lemma Clean_rows_Ok cutoff rows : ∀ st st' id,
  Clean_rows cutoff rows st = (None, st') →
  ((∃ last lastUp, (id, last) ∈ rows ∧ time_Parse last = Ok lastUp ∧
                   (lastUp < cutoff)%Z) →
   rows_of_id id (table st') = []) ∧
  ((∀ last lastUp, (id, last) ∈ rows → time_Parse last = Ok lastUp →
                   (cutoff ≤ lastUp)%Z) →
   rows_of_id id (table st') = rows_of_id id (table st)).
Proof.
  induction rows as [|[id0 last0] rows IH]; intros st st' id; simpl.
  { driver_step; [done|]. intros [= <-]. split.
    - intros (last & lastUp & Hin & _). by apply elem_of_nil in Hin.
    - intros _. by rewrite Htable. }
  driver_step; [done|]. driver_step; [done|].
  destruct (time_Parse last0) as [lastUp0|e] eqn:Eparse; [|done].
  unfold time_Before. destruct (Z.ltb_spec lastUp0 cutoff) as [Hlt|Hge].
  - destruct (DB_Exec_delete id0 st1) as [[e|] st2] eqn:Edel; [done|].
    apply DB_Exec_delete_Ok in Edel. intros Hrest.
    pose proof (Clean_rows_shrinks _ _ _ _ _ id Hrest) as Hshrink.
    apply (IH _ _ id) in Hrest as [IHstale IHfresh].
    assert (rows_of_id id (table st2)
            = if decide (id = id0) then [] else rows_of_id id (table st))
      as Hst2 by (by rewrite Edel, rows_of_id_delete, Htable0, Htable).
    split.
    + intros (last & lastUp & Hin & Hparse & Hstale).
      apply elem_of_cons in Hin as [[= -> ->]|Hin];
        [|apply IHstale; by exists last, lastUp].
      rewrite decide_True in Hst2 by done.
      destruct Hshrink as [Hsame|Hnone]; congruence.
    + intros Hfresh. rewrite IHfresh.
      * rewrite Hst2. case_decide as Hid; [|done]. subst.
        specialize (Hfresh last0 lastUp0 (list_elem_of_here _ _) Eparse). lia.
      * intros last lastUp Hin. apply Hfresh. by apply list_elem_of_further.
  - intros Hrest. apply (IH _ _ id) in Hrest as [IHstale IHfresh]. split.
    + intros (last & lastUp & Hin & Hparse & Hstale).
      apply elem_of_cons in Hin as [[= -> ->]|Hin];
        [|apply IHstale; by exists last, lastUp].
      rewrite Eparse in Hparse. injection Hparse as <-. lia.
    + intros Hfresh. rewrite IHfresh; [congruence|].
      intros last lastUp Hin. apply Hfresh. by apply list_elem_of_further.
Qed.

Lemma Clean_rows_quiet cutoff rows : ∀ st,
  faults st = [] →
  (∀ id last, (id, last) ∈ rows → ∃ lastUp, time_Parse last = Ok lastUp) →
  ∃ st', Clean_rows cutoff rows st = (None, st') ∧ faults st' = [].
Proof.
  induction rows as [|[id0 last0] rows IH]; intros st Hq Hparse; simpl.
  { rewrite driver_call_quiet by done. by exists st. }
  rewrite driver_call_quiet by done. simpl.
  rewrite driver_call_quiet by done.
  destruct (Hparse id0 last0 (list_elem_of_here _ _)) as [lastUp ->].
  assert (∀ id last, (id, last) ∈ rows → ∃ lastUp, time_Parse last = Ok lastUp)
    as Hparse' by (intros ???; eapply Hparse; by apply list_elem_of_further).
  destruct (time_Before lastUp cutoff).
  - rewrite DB_Exec_delete_quiet by done. by apply IH.
  - by apply IH.
Qed.

(** The cutoff [Clean] computes. *)
Lemma Duration_neg_opp (d : Duration) :
  (Duration_min < d ≤ Duration_max)%Z → Duration_neg d = (- d)%Z.
Proof.
  unfold Duration_min, Duration_max, Duration_neg, wrap64. intros Hd.
  rewrite Z.mod_small; lia.
Qed.

Lemma Duration_neg_min : Duration_neg Duration_min = Duration_min.
Proof. reflexivity. Qed.

(** [Clean] with the cutoff as it computes it, for any duration. *)
Lemma Clean_Ok s (inactive : Duration) st st' id :
  Clean s inactive st = (None, st') →
  let cutoff := time_Add (clock st) (Duration_neg inactive) in
  (stale cutoff id (table st) → rows_of_id id (table st') = []) ∧
  (fresh cutoff id (table st) →
   rows_of_id id (table st') = rows_of_id id (table st)).
Proof.
  unfold Clean, DB_Query_id_value. driver_step; [done|].
  destruct (Clean_rows _ _ _) as [err st2] eqn:Erows.
  intros [= -> <-]. apply (Clean_rows_Ok _ _ _ _ id) in Erows.
  unfold time_UTC, time_Now in Erows. rewrite Htable, Hclock in Erows.
  simpl in *. done.
Qed.

(** With a driver that reports no failure and markers that all parse,
    [Clean] returns no error. *)
Lemma Clean_quiet s (inactive : Duration) st :
  faults st = [] →
  (∀ id last, (id, last) ∈ sql_select_id_value SessionLastUpdated (table st) →
              ∃ lastUp, time_Parse last = Ok lastUp) →
  ∃ st', Clean s inactive st = (None, st').
Proof.
  intros Hq Hparse. unfold Clean, DB_Query_id_value.
  rewrite driver_call_quiet by done.
  destruct (Clean_rows_quiet
              (time_Add (time_UTC (time_Now (log (EvLock "clean") st)))
                 (Duration_neg inactive))
              (sql_select_id_value SessionLastUpdated (table st))
              (log (EvLock "clean") st) Hq Hparse) as (st' & Hrows & _).
  simpl in *. rewrite Hrows. by eexists.
Qed.

(** With a driver that reports no failure, a marker that does not
    parse makes the loop end in the parse error of such a marker. *)
Lemma Clean_rows_quiet_unparsable cutoff rows : ∀ st,
  faults st = [] →
  (∃ sid last e, (sid, last) ∈ rows ∧ time_Parse last = Err e) →
  ∃ e' st',
    Clean_rows cutoff rows st = (Some e', st') ∧
    ∃ sid last, (sid, last) ∈ rows ∧ time_Parse last = Err e'.
Proof.
  induction rows as [|[id0 last0] rows IH]; intros st Hq Hbad.
  { destruct Hbad as (sid & last & e & Hin & _). by apply elem_of_nil in Hin. }
  simpl. rewrite driver_call_quiet by done. simpl.
  rewrite driver_call_quiet by done.
  destruct (time_Parse last0) as [lastUp|e0] eqn:Eparse.
  - assert (∃ sid last e, (sid, last) ∈ rows ∧ time_Parse last = Err e)
      as Hbad'.
    { destruct Hbad as (sid & last & e & Hin & Hp).
      apply elem_of_cons in Hin as [[= -> ->]|Hin]; [congruence|].
      by exists sid, last, e. }
    assert (∀ st2, faults st2 = [] →
              ∃ e' st',
                Clean_rows cutoff rows st2 = (Some e', st') ∧
                ∃ sid last, (sid, last) ∈ (id0, last0) :: rows ∧
                            time_Parse last = Err e') as Hrest.
    { intros st2 Hq2.
      destruct (IH st2 Hq2 Hbad') as (e' & st' & Hrows & sid & last & Hin & Hp).
      exists e', st'. split; [done|]. exists sid, last.
      split; [by apply list_elem_of_further|done]. }
    destruct (time_Before lastUp cutoff).
    + rewrite DB_Exec_delete_quiet by done. by apply Hrest.
    + by apply Hrest.
  - exists e0, st. split; [done|]. exists id0, last0.
    split; [apply list_elem_of_here|done].
Qed.

(** C2, where the code falls short of it. [Save] puts the current
    instant under the reserved key as a time value and fixes no text
    format for it: the text of the marker row is whatever the driver
    writes for a time value, while [Clean] parses markers as
    RFC3339Nano. So whenever the driver's text for the instant of a
    successful [Save] is not what [time_Parse] reads, the marker that
    [Save] left is in the table, and the [Clean] that follows, even
    with a driver that reports no failure, does not sweep: it returns
    the parse error of a marker. *)
Theorem Save_stamp_makes_Clean_fail (s : Store) (r : Request)
    (w : ResponseWriter) (sess : Session) (st : World)
    (out : Saved) (st1 : World) (e : error)
    (s2 : Store) (inactive : Duration) (stc : World) :
  Save s r w sess st = (out, st1) →
  saved_err out = None →
  time_Parse (driver_format_time (clock st)) = Err e →
  table stc = table st1 →
  faults stc = [] →
  Values (saved_sess out) !! SessionLastUpdated = Some (VTime (clock st)) ∧
  (list_byte_of_string (ID sess), driver_format_time (clock st))
    ∈ sql_select_id_value SessionLastUpdated (table stc) ∧
  ∃ e' st2,
    Clean s2 inactive stc = (Some e', st2) ∧
    ∃ sid last,
      (sid, last) ∈ sql_select_id_value SessionLastUpdated (table stc) ∧
      time_Parse last = Err e'.
Proof.
  intros Hsave Hok Hparse Htc Hq.
  destruct (Save_stamps_time_value _ _ _ _ _ _ _ Hsave) as [Hstamp Hrow].
  destruct (Hrow Hok) as [_ Hmarker]. rewrite <- Htc in Hmarker.
  split; [done|]. split; [done|].
  unfold Clean, DB_Query_id_value. rewrite driver_call_quiet by done.
  destruct (Clean_rows_quiet_unparsable
              (time_Add (time_UTC (time_Now (log (EvLock "clean") stc)))
                 (Duration_neg inactive))
              (sql_select_id_value SessionLastUpdated (table stc))
              (log (EvLock "clean") stc) Hq)
    as (e' & st' & Hrows & Hbad).
  { by exists (list_byte_of_string (ID sess)),
              (driver_format_time (clock st)), e. }
  simpl in *. rewrite Hrows. by exists e', (log (EvUnlock "clean") st').
Qed.

(** C3, as the code has it. For every inactivity threshold [d] whose
    negation is a duration (every int64 but the least), a [Clean] run
    at instant [clock st] that returns no error has removed all rows of
    every id with a last-updated marker strictly before [clock st - d],
    and has left the rows of every id whose markers are all at or after
    it as they were. *)
Theorem Clean_deletes_stale_keeps_fresh (s : Store) (d : Duration)
    (st st' : World) :
  (Duration_min < d ≤ Duration_max)%Z →
  Clean s d st = (None, st') →
  ∀ id,
    (stale (clock st - d) id (table st) → rows_of_id id (table st') = []) ∧
    (fresh (clock st - d) id (table st) →
     rows_of_id id (table st') = rows_of_id id (table st)).
Proof.
  intros Hd Hclean id.
  pose proof (Clean_Ok _ _ _ _ id Hclean) as Hok.
  unfold time_Add in Hok. rewrite (Duration_neg_opp _ Hd) in Hok.
  by replace (clock st + - d)%Z with (clock st - d)%Z in Hok by lia.
Qed.

(** ** [Store_id] and [SetKeys] *)

Lemma length_string_of_list_byte (l : bytes) :
  String.length (string_of_list_byte l) = length l.
Proof.
  unfold string_of_list_byte.
  induction l as [|b l IH]; simpl; [done|]. by rewrite IH.
Qed.

(** C6. [Store_id] returns a string and nothing else, so it has no
    failure to hand on. For a request without the tracking cookie, and
    for a request whose tracking cookie does not decode, the identity it
    returns is the next 64 bytes of the random source: 64 bytes long,
    not empty, and drawn from the source, which moves on by 64 bytes. *)
Theorem Store_id_mints_fresh_identity (s : Store) (r : Request) (st : World) :
  ((∃ e, Request_Cookie r CookieIdName = Err e) ∨
   (∃ cook e, Request_Cookie r CookieIdName = Ok cook ∧
              Decode (cookrw s) CookieIdName (cookie_Value cook) = Err e)) →
  ∃ key,
    Store_id s r st = (string_of_list_byte key, set_drawn (drawn st + 64) st) ∧
    key = (λ i, entropy st (drawn st + i)) <$> seq 0 64 ∧
    length key = 64 ∧
    String.length (string_of_list_byte key) = 64 ∧
    string_of_list_byte key ≠ "".
Proof.
  intros Hcookie.
  assert (readCookie s r CookieIdName = "") as Hread.
  { unfold readCookie.
    destruct Hcookie as [[e ->]|(cook & e & -> & ->)]; done. }
  exists ((λ i, entropy st (drawn st + i)) <$> seq 0 64).
  unfold Store_id. rewrite Hread. simpl String.length. simpl Nat.eqb.
  unfold GenerateRandomKey. cbv iota.
  assert (length ((λ i, entropy st (drawn st + i)) <$> seq 0 64) = 64) as Hlen
    by (by rewrite length_fmap, length_seq).
  split; [done|]. split; [done|]. split; [done|].
  rewrite <- (length_string_of_list_byte _) in Hlen. split; [done|].
  intros Hempty. by rewrite Hempty in Hlen.
Qed.

(** C7. [SetKeys] panics exactly when the block key is not nil and its
    length is none of 16, 24 and 32; it returns, with both keys
    installed, exactly when the block key is nil or has one of these
    lengths. *)
Theorem SetKeys_panics_iff_bad_block_key (s : Store)
    (hash block : option bytes) :
  (SetKeys s hash block = Panicked "invalid block key" ↔
     (∃ b, block = Some b ∧ length b ≠ 16 ∧ length b ≠ 24 ∧ length b ≠ 32)) ∧
  (SetKeys s hash block = Returned (mkStore hash block) ↔
     (block = None ∨
      ∃ b, block = Some b ∧ (length b = 16 ∨ length b = 24 ∨ length b = 32))).
Proof.
  unfold SetKeys. destruct block as [b|]; simpl.
  - destruct (Nat.eqb_spec (length b) 16) as [E1|E1];
    destruct (Nat.eqb_spec (length b) 24) as [E2|E2];
    destruct (Nat.eqb_spec (length b) 32) as [E3|E3]; simpl.
    all: split; split.
    all: try discriminate.
    all: try (intros (b' & [= <-] & ? & ? & ?); lia).
    all: try (intros _; right; exists b; split; [done | lia]).
    all: try done.
    all: try (intros _; exists b; done).
    all: try (intros [? | (b' & [= <-] & ?)]; [done | lia]).
  - split; split; try done.
    + by intros (? & ? & ?).
    + by left.
Qed.

End Properties.

(** * The properties at concrete inputs *)

(** C1 at work: [alice] saves over what two earlier sessions left, and
    comes back with the cookie. *)
Lemma Save_then_New_full_replace_witness :
  saved_err Demo.saved.1 = None ∧
  sql_select_key_value Demo.alice_id "web" (table Demo.saved.2)
    ≡ₚ map_to_list (stored (H := Demo.env) Demo.now (Values Demo.sess)) ∧
  ∃ sess2 st3,
    New (H := Demo.env) Demo.store Demo.returning "web" Demo.saved.2
    = (Ok sess2, st3) ∧
    Values sess2 = VString <$> stored (H := Demo.env) Demo.now (Values Demo.sess).
Proof.
  assert (saved_err Demo.saved.1 = None) as Hok by (vm_compute; reflexivity).
  destruct (Save_then_New_full_replace (H := Demo.env)
              Demo.store Demo.anonymous [] Demo.sess (Demo.world Demo.prior [])
              Demo.saved.1 Demo.saved.2 (surjective_pairing _) Hok)
    as [Hrows Hnew].
  split; [exact Hok|]. split; [exact Hrows|].
  assert ((Store_id (H := Demo.env) Demo.store Demo.returning Demo.saved.2).1
          = ID Demo.sess) as Hid by (vm_compute; reflexivity).
  destruct (Hnew Demo.store Demo.returning Demo.saved.2 eq_refl Hid)
    as [Hvalues Htotal].
  assert (faults Demo.saved.2 = []) as Hq by (vm_compute; reflexivity).
  destruct (Htotal Hq) as (sess2 & st3 & Hload).
  exists sess2, st3. split; [exact Hload|].
  exact (proj2 (proj2 (Hvalues sess2 st3 Hload))).
Defined.

(** C9 at work: the rows [alice] held under the name "admin" are gone
    after she saves her "web" session. *)
Lemma Save_destroys_other_names_witness :
  saved_err Demo.saved.1 = None ∧
  sql_select_key_value Demo.alice_id "admin" Demo.prior = [("role", "root")] ∧
  sql_select_key_value Demo.alice_id "admin" (table Demo.saved.2) = [].
Proof.
  assert (saved_err Demo.saved.1 = None) as Hok by (vm_compute; reflexivity).
  destruct (Save_destroys_other_names (H := Demo.env)
              Demo.store Demo.anonymous [] Demo.sess (Demo.world Demo.prior [])
              Demo.saved.1 Demo.saved.2 (surjective_pairing _) Hok)
    as (_ & Hother & _).
  split; [exact Hok|]. split; [vm_compute; reflexivity|].
  apply Hother. discriminate.
Defined.

(** C4 at work: the second insert fails. *)
Lemma Save_failed_step_rolls_back_witness :
  faults (Demo.world Demo.prior
            [None; None; None; None; Some Demo.connection_reset])
  = replicate 4 None ++ [Some Demo.connection_reset] ∧
  saved_err Demo.insert_failed.1 = Some Demo.connection_reset ∧
  table Demo.insert_failed.2 = Demo.prior.
Proof.
  assert (1 ≤ 4 ≤ 2 + size (stamped Demo.now (Values Demo.sess))) as Hn
    by (vm_compute; lia).
  destruct (Save_failed_step_rolls_back (H := Demo.env)
              Demo.store Demo.anonymous [] Demo.sess
              (Demo.world Demo.prior
                 [None; None; None; None; Some Demo.connection_reset])
              4 Demo.connection_reset [] eq_refl Hn)
    as (out & st' & Hsave & Herr & _ & Htable & _).
  change (Demo.insert_failed = (out, st')) in Hsave. rewrite Hsave.
  split; [reflexivity|]. split; [exact Herr|exact Htable].
Defined.

(** Against C5 as stated: a store without a hash key cannot encode the
    identity; its [Save] sets no cookie, whether the rows are then
    written or not. *)
Lemma Save_without_hash_key_sets_no_cookie :
  saved_w Demo.keyless_save_failed.1 = [] ∧
  saved_err Demo.keyless_save_failed.1 = Some Demo.connection_reset ∧
  saved_w Demo.keyless_saved.1 = [] ∧
  saved_err Demo.keyless_saved.1 = None.
Proof. repeat split; vm_compute; reflexivity. Qed.

(** C5 at work: the first save of a fresh identity fails at the delete;
    the response carries the cookie, the table has no row for it. *)
Lemma Save_sets_cookie_before_transaction_witness :
  Encode (cookrw (H := Demo.env) Demo.store) CookieIdName Demo.alice
  = Ok "#alice" ∧
  saved_err Demo.first_save_failed.1 = Some Demo.connection_reset ∧
  saved_w Demo.first_save_failed.1
  = [mkCookie CookieIdName "#alice" "/" true] ∧
  rows_of_id Demo.alice_id (table Demo.first_save_failed.2) = [].
Proof.
  assert (Encode (cookrw (H := Demo.env) Demo.store) CookieIdName
            (ID Demo.sess) = Ok "#alice") as Henc by reflexivity.
  destruct (Save_sets_cookie_before_transaction (H := Demo.env)
              Demo.store Demo.anonymous [] Demo.sess
              (Demo.world [] [None; Some Demo.connection_reset])
              "#alice" Demo.first_save_failed.1 Demo.first_save_failed.2
              Henc (surjective_pairing _))
    as (Hw & _ & Hfail).
  assert (saved_err Demo.first_save_failed.1 = Some Demo.connection_reset)
    as Herr by (vm_compute; reflexivity).
  split; [exact Henc|]. split; [exact Herr|]. split; [exact Hw|].
  apply (proj2 (Hfail _ Herr)). reflexivity.
Defined.


(** The stamp at concrete inputs: what [Save] puts under the reserved
    key of the in-memory values is a time value, no text in any format;
    the text of the marker row is the driver's, and with a driver that
    writes instants in a format [time_Parse] does not read, the [Clean]
    that follows a successful [Save] stops at the marker. *)
Lemma Save_stamp_is_not_text :
  Values (saved_sess Demo.saved.1) !! SessionLastUpdated
  = Some (VTime Demo.now) ∧
  (∀ text, Values (saved_sess Demo.saved.1) !! SessionLastUpdated
           ≠ Some (VString text)) ∧
  saved_err Demo.saved_at.1 = None ∧
  Demo.swept_at.1 = Some "parsing time: cannot parse".
Proof.
  assert (Values (saved_sess Demo.saved.1) !! SessionLastUpdated
          = Some (VTime Demo.now)) as Hstamp by (vm_compute; reflexivity).
  split; [exact Hstamp|]. split.
  - intros text. rewrite Hstamp. discriminate.
  - split; vm_compute; reflexivity.
Qed.

(** C2 at work: with the driver that writes instants in its own
    format, the save goes through and the sweep that follows returns a
    parse error. *)
Lemma Save_stamp_makes_Clean_fail_witness :
  saved_err Demo.saved_at.1 = None ∧
  time_Parse (Environment := Demo.env_at)
    (driver_format_time (Environment := Demo.env_at) Demo.now)
  = Err "parsing time: cannot parse" ∧
  Values (saved_sess Demo.saved_at.1) !! SessionLastUpdated
  = Some (VTime Demo.now) ∧
  ∃ e' st2, Demo.swept_at = (Some e', st2).
Proof.
  assert (saved_err Demo.saved_at.1 = None) as Hok
    by (vm_compute; reflexivity).
  assert (time_Parse (Environment := Demo.env_at)
            (driver_format_time (Environment := Demo.env_at)
               (clock (Demo.world [] [])))
          = Err "parsing time: cannot parse") as Hparse
    by (vm_compute; reflexivity).
  assert (faults Demo.saved_at.2 = []) as Hq by (vm_compute; reflexivity).
  destruct (Save_stamp_makes_Clean_fail (H := Demo.env_at)
              Demo.store Demo.anonymous [] Demo.sess (Demo.world [] [])
              Demo.saved_at.1 Demo.saved_at.2 _ Demo.store 0%Z
              Demo.saved_at.2
              (surjective_pairing _) Hok Hparse eq_refl Hq)
    as (Hstamp & _ & e' & st2 & Hclean & _).
  split; [exact Hok|]. split; [exact Hparse|]. split; [exact Hstamp|].
  exists e', st2. exact Hclean.
Defined.

(** Against C3 as stated: the least duration is its own negation, so
    with it as threshold the cutoff [Clean] computes lies before the
    clock, not after it as [clock - d] does; [alice]'s marker, strictly
    before [clock - d], stays, and so do her rows. *)
Lemma Clean_least_duration_keeps_stale :
  is_Duration Duration_min ∧
  stale (H := Demo.env) (Demo.now - Duration_min) Demo.alice_id Demo.prior ∧
  Demo.swept_min.1 = None ∧
  rows_of_id Demo.alice_id (table Demo.swept_min.2)
  = rows_of_id Demo.alice_id Demo.prior ∧
  rows_of_id Demo.alice_id (table Demo.swept_min.2) ≠ [].
Proof.
  split; [unfold is_Duration, Duration_min, Duration_max; lia|].
  split.
  { exists (Demo.format (Demo.now - 10 * Demo.day)),
           (Demo.now - 10 * Demo.day)%Z.
    split; [|split].
    - vm_compute. apply list_elem_of_here.
    - vm_compute. reflexivity.
    - vm_compute. reflexivity. }
  split; [vm_compute; reflexivity|].
  split; [vm_compute; reflexivity|].
  vm_compute. discriminate.
Qed.

(** C3 at work: with a threshold of five days, [alice] (last updated
    ten days ago) is swept and [bob] (last updated a day ago) is not. *)
Lemma Clean_deletes_stale_keeps_fresh_witness :
  (Duration_min < 5 * Demo.day ≤ Duration_max)%Z ∧
  Demo.swept.1 = None ∧
  stale (H := Demo.env) (Demo.now - 5 * Demo.day) Demo.alice_id Demo.prior ∧
  fresh (H := Demo.env) (Demo.now - 5 * Demo.day) Demo.bob_id Demo.prior ∧
  rows_of_id Demo.alice_id (table Demo.swept.2) = [] ∧
  rows_of_id Demo.bob_id (table Demo.swept.2)
  = rows_of_id Demo.bob_id Demo.prior.
Proof.
  assert (Duration_min < 5 * Demo.day ≤ Duration_max)%Z as Hd
    by (unfold Duration_min, Duration_max, Demo.day; lia).
  assert (Clean (H := Demo.env) Demo.store (5 * Demo.day)%Z
            (Demo.world Demo.prior [])
          = (None, Demo.swept.2)) as Hclean by (vm_compute; reflexivity).
  assert (stale (H := Demo.env) (Demo.now - 5 * Demo.day)
            Demo.alice_id Demo.prior) as Hstale.
  { exists (Demo.format (Demo.now - 10 * Demo.day)),
           (Demo.now - 10 * Demo.day)%Z.
    split; [|split].
    - vm_compute. apply list_elem_of_here.
    - vm_compute. reflexivity.
    - unfold Demo.now, Demo.day. lia. }
  assert (fresh (H := Demo.env) (Demo.now - 5 * Demo.day)
            Demo.bob_id Demo.prior) as Hfresh.
  { intros last lastUp Hin Hparse. vm_compute in Hin.
    apply elem_of_cons in Hin as [Heq|Hin]; [discriminate Heq|].
    apply elem_of_cons in Hin as [Heq|Hin];
      [|by apply elem_of_nil in Hin].
    injection Heq as ->. vm_compute in Hparse. injection Hparse as <-.
    unfold Demo.now, Demo.day. lia. }
  split; [exact Hd|]. split; [vm_compute; reflexivity|].
  split; [exact Hstale|]. split; [exact Hfresh|]. split.
  - exact (proj1 (Clean_deletes_stale_keeps_fresh (H := Demo.env)
                    Demo.store (5 * Demo.day)%Z (Demo.world Demo.prior [])
                    Demo.swept.2 Hd Hclean Demo.alice_id) Hstale).
  - exact (proj2 (Clean_deletes_stale_keeps_fresh (H := Demo.env)
                    Demo.store (5 * Demo.day)%Z (Demo.world Demo.prior [])
                    Demo.swept.2 Hd Hclean Demo.bob_id) Hfresh).
Defined.

(** C6 at work: a request without cookies, and one whose tracking
    cookie was tampered with. *)
Lemma Store_id_mints_fresh_identity_witness :
  Request_Cookie Demo.anonymous CookieIdName = Err ErrNoCookie ∧
  Decode (cookrw (H := Demo.env) Demo.store) CookieIdName "garbage"
  = Err "securecookie: the value is not valid" ∧
  String.length
    (Store_id (H := Demo.env) Demo.store Demo.anonymous (Demo.world [] [])).1
  = 64 ∧
  String.length
    (Store_id (H := Demo.env) Demo.store Demo.tampered (Demo.world [] [])).1
  = 64.
Proof.
  assert (Request_Cookie Demo.anonymous CookieIdName = Err ErrNoCookie)
    as Hnone by reflexivity.
  assert (Decode (cookrw (H := Demo.env) Demo.store) CookieIdName "garbage"
          = Err "securecookie: the value is not valid") as Hbad by reflexivity.
  split; [exact Hnone|]. split; [exact Hbad|]. split.
  - destruct (Store_id_mints_fresh_identity (H := Demo.env)
                Demo.store Demo.anonymous (Demo.world [] [])
                (or_introl (ex_intro _ _ Hnone)))
      as (key & -> & _ & _ & Hlen & _).
    exact Hlen.
  - destruct (Store_id_mints_fresh_identity (H := Demo.env)
                Demo.store Demo.tampered (Demo.world [] [])
                (or_intror
                   (ex_intro _ (mkCookie CookieIdName "garbage" "/" true)
                      (ex_intro _ _ (conj eq_refl Hbad)))))
      as (key & -> & _ & _ & Hlen & _).
    exact Hlen.
Defined.

(** C7 at work: a block key of three bytes, a nil block key, and a
    block key of sixteen bytes. *)
Lemma SetKeys_panics_iff_bad_block_key_witness :
  SetKeys Demo.store (Some [x01]) (Some [x00; x00; x00])
  = Panicked "invalid block key" ∧
  SetKeys Demo.store (Some [x01]) None = Returned (mkStore (Some [x01]) None) ∧
  SetKeys Demo.store (Some [x01]) (Some (replicate 16 x00))
  = Returned (mkStore (Some [x01]) (Some (replicate 16 x00))).
Proof.
  split; [|split].
  - apply (proj1 (SetKeys_panics_iff_bad_block_key _ _ _)).
    exists [x00; x00; x00]. simpl. split; [reflexivity|lia].
  - apply (proj2 (SetKeys_panics_iff_bad_block_key _ _ _)).
    left. reflexivity.
  - apply (proj2 (SetKeys_panics_iff_bad_block_key _ _ _)).
    right. exists (replicate 16 x00). split; [reflexivity|].
    left. reflexivity.
Defined.

(** C8 at work: [Delete] twice for a session that has no rows, and
    [Delete] for one that has. *)
Lemma Delete_idempotent_witness :
  rows_of_id Demo.alice_id (table (Demo.world [] [])) = [] ∧
  (∃ st1 st2,
     Delete Demo.store Demo.sess (Demo.world [] []) = (None, st1) ∧
     Delete Demo.store Demo.sess st1 = (None, st2) ∧
     table st2 = [] ∧ table st1 = []) ∧
  (Delete Demo.store Demo.sess (Demo.world Demo.prior [])).1 = None ∧
  rows_of_id Demo.alice_id
    (table (Delete Demo.store Demo.sess (Demo.world Demo.prior [])).2) = [].
Proof.
  split; [reflexivity|]. split.
  - destruct (proj1 (Delete_idempotent Demo.store Demo.sess (Demo.world [] []))
                eq_refl) as (st1 & st2 & Hone & Htwo & Hsame & Hnoop).
    exists st1, st2. split; [exact Hone|]. split; [exact Htwo|].
    rewrite Hsame. split; exact (Hnoop eq_refl).
  - split; [vm_compute; reflexivity|].
    apply (proj2 (Delete_idempotent Demo.store Demo.sess
                    (Demo.world Demo.prior []))).
    vm_compute. reflexivity.
Defined.

(** * Further properties of the store *)

Section Further.
Context `{Environment}.

(** Case analysis on the next driver call, keeping what it preserves
    and where the failure it reports comes from. *)
Lemma driver_call_script st f st' :
  driver_call st = (f, st') →
  (∀ e, f = Some e → faults st = Some e :: faults st') ∧
  (∀ x, x ∈ faults st' → x ∈ faults st) ∧
  drawn st' = drawn st ∧ entropy st' = entropy st.
Proof.
  unfold driver_call. destruct (faults st) as [|x fs] eqn:Hf.
  - intros [= <- <-]. rewrite Hf. done.
  - intros [= <- <-]. simpl. split_and!; [by intros e -> | | done | done].
    intros y Hy. by apply list_elem_of_further.
Qed.

Ltac driver_case :=
  match goal with
  | |- context [driver_call ?st] =>
      let f := fresh "f" in
      let st' := fresh "st" in
      let E := fresh "Ecall" in
      let Ht := fresh "Htable" in
      let Hl := fresh "Htrace" in
      let Hc := fresh "Hclock" in
      let Hs := fresh "Hscript" in
      let Hm := fresh "Hmem" in
      let Hd := fresh "Hdrawn" in
      destruct (driver_call st) as [f st'] eqn:E;
      destruct (driver_call_frame _ _ _ E) as (Ht & Hl & Hc);
      destruct (driver_call_script _ _ _ E) as (Hs & Hm & Hd & _);
      simpl in Ht, Hl, Hc, Hs, Hm, Hd;
      destruct f as [?e|]; simpl
  end.

(** ** The identity *)

(** X2. The identity [Store_id] resolves is never empty: it is the
    identity the tracking cookie decodes to when that is not empty, and
    then nothing is drawn from the random source; otherwise it is 64
    fresh bytes. *)
Theorem Store_id_never_empty (s : Store) (r : Request) (st : World) :
  (Store_id s r st).1 ≠ "" ∧
  (readCookie s r CookieIdName ≠ "" →
   Store_id s r st = (readCookie s r CookieIdName, st)) ∧
  (readCookie s r CookieIdName = "" →
   String.length (Store_id s r st).1 = 64 ∧
   drawn (Store_id s r st).2 = drawn st + 64).
Proof.
  unfold Store_id, GenerateRandomKey.
  destruct (readCookie s r CookieIdName) as [|a v] eqn:Hread.
  - assert (length (seq 0 64) = 64) as Hl by apply length_seq.
    revert Hl. generalize (seq 0 64). intros l Hl. simpl.
    assert (String.length
              (string_of_list_byte ((λ i, entropy st (drawn st + i)) <$> l))
            = 64) as Hlen
      by (by rewrite length_string_of_list_byte, length_fmap).
    split; [|split; [done|done]].
    intros Hempty. by rewrite Hempty in Hlen.
  - simpl. split; [done|]. split; [done|]. done.
Qed.

(** X3. The cookie round trip: when the codec decodes what it encodes
    for the session's identity, and the response carried no tracking
    cookie before, the request that brings back the cookies [Save] set
    resolves to the session's identity, with nothing drawn from the
    random source. *)
Theorem Save_cookie_round_trip (s : Store) (r : Request)
    (w : ResponseWriter) (sess : Session) (st : World)
    (encoded : string) (out : Saved) (st' : World) :
  Encode (cookrw s) CookieIdName (ID sess) = Ok encoded →
  Decode (cookrw s) CookieIdName encoded = Ok (ID sess) →
  ID sess ≠ "" →
  (∀ c, c ∈ w → cookie_Name c ≠ CookieIdName) →
  Save s r w sess st = (out, st') →
  ∀ st2, Store_id s (mkRequest (saved_w out)) st2 = (ID sess, st2).
Proof.
  intros Henc Hdec Hid Hw Hsave st2.
  destruct (Save_saved _ _ _ _ _ _ _ Hsave) as [Hout _].
  unfold writeCookie in Hout. rewrite Henc in Hout. simpl in Hout.
  apply Store_id_cookie; [|done].
  unfold readCookie, Request_Cookie. simpl. rewrite Hout.
  unfold http_SetCookie. rewrite filter_app.
  assert (filter (λ c, cookie_Name c = CookieIdName) w = []) as ->.
  { clear -Hw. induction w as [|c w IH]; [done|].
    rewrite filter_cons, decide_False.
    - apply IH. intros c' Hc'. apply Hw. by apply list_elem_of_further.
    - apply Hw. apply list_elem_of_here. }
  rewrite app_nil_l, filter_cons, decide_True by done.
  cbn [cookie_Value]. by rewrite Hdec.
Qed.

(** ** [New] *)

Lemma New_rows_frame rows : ∀ values st res st',
  New_rows rows values st = (res, st') →
  table st' = table st ∧ trace st' = trace st.
Proof.
  induction rows as [|[k v] rows IH]; intros values st res st'; simpl.
  - driver_case; intros [= <- <-]; by rewrite Htable, Htrace.
  - driver_case; [intros [= <- <-]; by rewrite Htable, Htrace|].
    driver_case; [intros [= <- <-]; split; congruence|].
    intros Hrest. apply IH in Hrest as [-> ->]. split; congruence.
Qed.

Lemma New_keeps_table s r name st res st' :
  New s r name st = (res, st') → table st' = table st.
Proof.
  unfold New. destruct (Store_id s r st) as [id st1] eqn:Eid.
  destruct (Store_id_frame _ _ _ _ _ Eid) as (Ht1 & _ & _).
  cbn [ID Name Values NewSession fst].
  unfold DB_Query_key_value. driver_case.
  { intros [= <- <-]. simpl. congruence. }
  destruct (New_rows _ _ _) as [[m|e] st3] eqn:Erows;
    apply New_rows_frame in Erows as [Ht3 _];
    intros [= <- <-]; simpl; congruence.
Qed.

(** X4. [New] only reads: whatever it returns, the table is as it was,
    and all it has done besides is to take the read lock of the identity
    it resolved and to release it again. *)
Theorem New_only_reads (s : Store) (r : Request) (name : string)
    (st : World) (res : result Session) (st' : World) :
  New s r name st = (res, st') →
  table st' = table st ∧
  events_since st st'
  = [EvRLock (Store_id s r st).1; EvRUnlock (Store_id s r st).1].
Proof.
  unfold New. destruct (Store_id s r st) as [id st1] eqn:Eid.
  destruct (Store_id_frame _ _ _ _ _ Eid) as (Ht1 & _ & Hl1).
  cbn [ID Name Values NewSession fst].
  unfold DB_Query_key_value, RLock, RUnlock. cbn [ID].
  assert (∀ st2, table st2 = table st1 → trace st2 = trace st1 ++ [EvRLock id] →
            table (log (EvRUnlock id) st2) = table st ∧
            events_since st (log (EvRUnlock id) st2)
            = [EvRLock id; EvRUnlock id]) as Hdone.
  { intros st2 Ht2 Hl2. split; [simpl; congruence|].
    apply events_since_app. simpl. by rewrite Hl2, Hl1, <- app_assoc. }
  driver_case.
  { intros [= <- <-]. by apply Hdone. }
  destruct (New_rows _ _ _) as [[m|e] st3] eqn:Erows;
    apply New_rows_frame in Erows as [Ht3 Hl3];
    intros [= <- <-]; apply Hdone; congruence.
Qed.

Lemma New_rows_fault rows : ∀ values st n e fs,
  faults st = replicate n None ++ Some e :: fs →
  n ≤ 2 * length rows →
  ∃ st', New_rows rows values st = (Err e, st').
Proof.
  induction rows as [|[k v] rows IH]; intros values st n e fs Hf Hn; simpl in *.
  - assert (n = 0) as -> by lia. rewrite (driver_call_fail _ _ _ Hf). by eexists.
  - destruct n as [|n]; [rewrite (driver_call_fail _ _ _ Hf); by eexists|].
    rewrite (driver_call_pass _ _ _ Hf). simpl.
    destruct n as [|n].
    + rewrite (driver_call_fail _ e fs) by done. by eexists.
    + rewrite (driver_call_pass _ n (Some e :: fs)) by done.
      apply (IH _ _ n e fs); [done|lia].
Qed.

(** X5. A read error is handed on: when the driver fails the query of
    [New], or one of the calls that fetch and scan its rows, or the one
    that finds the end of them, [New] returns that error and no session,
    and the table is as it was. *)
Theorem New_hands_on_read_error (s : Store) (r : Request) (name : string)
    (st : World) (n : nat) (e : error) (fs : list (option error)) :
  faults st = replicate n None ++ Some e :: fs →
  n ≤ 1 + 2 * length (sql_select_key_value
                        (list_byte_of_string (Store_id s r st).1) name
                        (table st)) →
  ∃ st', New s r name st = (Err e, st') ∧ table st' = table st.
Proof.
  intros Hf Hn.
  destruct (New s r name st) as [res st'] eqn:Hnew.
  pose proof (New_keeps_table s r name st res st' Hnew) as Htable.
  exists st'. split; [|done]. f_equal.
  revert Hnew. unfold New. destruct (Store_id s r st) as [id st1] eqn:Eid.
  destruct (Store_id_frame _ _ _ _ _ Eid) as (Ht1 & Hf1 & _).
  cbn [ID Name Values NewSession fst] in *.
  unfold DB_Query_key_value, RLock.
  rewrite <- Hf1 in Hf. destruct n as [|n]; simpl in Hf.
  - rewrite (driver_call_fail _ e fs) by done.
    by intros [= <- <-].
  - rewrite (driver_call_pass _ n (Some e :: fs)) by done.
    simpl. rewrite Ht1.
    destruct (New_rows_fault
                (sql_select_key_value (list_byte_of_string id) name (table st))
                ∅ (set_faults (replicate n None ++ Some e :: fs)
                     (log (EvRLock id) st1)) n e fs eq_refl ltac:(lia))
      as [st3 ->].
    by intros [= <- <-].
Qed.

(** ** [Save] *)

(** X6. On every path through [Save] the lock of the session is taken
    first and released last, the transaction is begun once after the
    cookie is dealt with, and it is then either committed, or, with an
    error returned, rolled back or (when [Begin] itself failed) left
    alone: never both committed and rolled back. *)
Theorem Save_lock_and_transaction_discipline (s : Store) (r : Request)
    (w : ResponseWriter) (sess : Session) (st : World)
    (out : Saved) (st' : World) :
  Save s r w sess st = (out, st') →
  ∃ tx_events,
    events_since st st'
    = EvLock (ID sess) :: cookie_events s sess
      ++ EvBegin :: tx_events ++ [EvUnlock (ID sess)] ∧
    (tx_events = [EvCommit] ∨
     (saved_err out ≠ None ∧ (tx_events = [] ∨ tx_events = [EvRollback]))).
Proof.
  unfold Save, Save_locked.
  pose proof (writeCookie_trace s r w sess (Lock sess st)) as Hw.
  destruct (writeCookie _ _ _ _ _ _) as [w1 st1] eqn:Ew. simpl in Hw.
  assert (∀ st2 evs,
    trace st2 = trace st1 ++ EvBegin :: evs →
    events_since st (Unlock sess st2)
    = EvLock (ID sess) :: cookie_events s sess
      ++ EvBegin :: evs ++ [EvUnlock (ID sess)]) as Hshape.
  { intros st2 evs Hst2. apply events_since_app. simpl.
    by rewrite Hst2, Hw, <- !app_assoc. }
  unfold DB_Begin. driver_case.
  { intros [= <- <-]. exists []. split; [by apply Hshape|]. right. by split; [|left]. }
  unfold Tx_Exec_delete. driver_case.
  { intros [= <- <-]. exists [EvRollback]. split.
    - apply Hshape. simpl. by rewrite Htrace0, Htrace, <- app_assoc.
    - right. by split; [|right]. }
  unfold Tx_Prepare_insert. driver_case.
  { intros [= <- <-]. exists [EvRollback]. split.
    - apply Hshape. simpl. by rewrite Htrace1, Htrace0, Htrace, <- app_assoc.
    - right. by split; [|right]. }
  destruct (Save_range _ _ _ _ _ _) as [[tx2|e'] st5] eqn:Er.
  - apply Save_range_Ok in Er as [_ Htrace5].
    unfold Tx_Commit. driver_case; intros [= <- <-];
      (exists [EvCommit]; split; [|by left]; apply Hshape; simpl;
       rewrite ?Htrace2; simpl;
       by rewrite Htrace5, Htrace1, Htrace0, Htrace, <- !app_assoc).
  - apply Save_range_Err in Er as Htrace5.
    intros [= <- <-]. exists [EvRollback]. split.
    + apply Hshape. by rewrite Htrace5, Htrace1, Htrace0, Htrace, <- !app_assoc.
    + right. by split; [|right].
Qed.

Lemma rows_of_id_session_rows sid name entries :
  rows_of_id sid (session_rows sid name entries)
  = session_rows sid name entries.
Proof.
  unfold rows_of_id, session_rows.
  induction entries as [|[k v] entries IH]; [done|].
  rewrite fmap_cons, filter_cons. simpl.
  rewrite decide_True by done. by rewrite IH.
Qed.

(** X7. [Save] is all or nothing, and touches one identity only: in
    every outcome the rows of every other identity are as they were;
    when it returns an error, whichever call failed, the whole table is
    as it was; when it returns none, the identity's rows are exactly
    those of the stamped values, all under the session's name. *)
Theorem Save_all_or_nothing (s : Store) (r : Request)
    (w : ResponseWriter) (sess : Session) (st : World)
    (out : Saved) (st' : World) :
  Save s r w sess st = (out, st') →
  let id := list_byte_of_string (ID sess) in
  (∀ id', id' ≠ id → rows_of_id id' (table st') = rows_of_id id' (table st)) ∧
  (saved_err out ≠ None → table st' = table st) ∧
  (saved_err out = None →
   rows_of_id id (table st')
   = session_rows id (Name sess)
       (range_order (stamped (clock st) (Values sess)))).
Proof.
  intros Hsave id. destruct (saved_err out) as [e|] eqn:Herr.
  - pose proof (Save_Err_table _ _ _ _ _ _ _ _ Hsave Herr) as Htable.
    split; [|split; [done|done]]. intros id' _. by rewrite Htable.
  - pose proof (Save_Ok_table _ _ _ _ _ _ _ Hsave Herr) as Htable.
    fold id in Htable. split; [|split; [done|]].
    + intros id' Hid'. rewrite Htable, rows_of_id_app.
      rewrite rows_of_id_delete_other by done.
      rewrite rows_of_id_session_rows_other by done. apply app_nil_r.
    + intros _. rewrite Htable, rows_of_id_app, rows_of_id_delete_same.
      simpl. apply rows_of_id_session_rows.
Qed.

Lemma Save_range_script prep id name entries : ∀ tx st res st',
  Save_range prep tx id name entries st = (res, st') →
  ∀ x, x ∈ faults st' → x ∈ faults st.
Proof.
  induction entries as [|[k v] entries IH]; intros tx st res st'; simpl.
  { by intros [= <- <-]. }
  unfold Stmt_Exec. driver_case.
  - intros [= <- <-]. simpl. done.
  - destruct (sql_insert _ _) as [t|e]; simpl.
    + intros Hrest x Hx. apply Hmem. by apply (IH _ _ _ _ Hrest).
    + intros [= <- <-]. simpl. done.
Qed.

Lemma Save_range_Err_source prep id name entries : ∀ tx st e st',
  NoDup (entries.*1) →
  keys_free id name entries (tx_rows tx) →
  Save_range prep tx id name entries st = (Err e, st') →
  Some e ∈ faults st.
Proof.
  induction entries as [|[k v] entries IH];
    intros tx st e st' Hnd Hfree; simpl in *.
  { done. }
  destruct (keys_free_step _ _ _ _ _ _ Hnd Hfree) as [Hk Hfree'].
  unfold Stmt_Exec. driver_case.
  - intros [= <- <-]. rewrite (Hscript _ eq_refl). apply list_elem_of_here.
  - unfold sql_insert. rewrite decide_False by done. simpl.
    intros Hrest. apply Hmem. apply NoDup_cons in Hnd as [_ Hnd].
    apply (IH (mkTx _) _ _ _ Hnd Hfree' Hrest).
Qed.

(** X8. Whatever rows the table holds, [Save] does not fail on them:
    every error it returns is one the driver reported. The delete
    before the inserts and the distinct keys of the values leave no
    primary key for an insert to collide with. *)
Theorem Save_errors_are_the_drivers (s : Store) (r : Request)
    (w : ResponseWriter) (sess : Session) (st : World)
    (out : Saved) (st' : World) (e : error) :
  Save s r w sess st = (out, st') →
  saved_err out = Some e →
  Some e ∈ faults st.
Proof.
  unfold Save, Save_locked.
  destruct (writeCookie _ _ _ _ _ _) as [w1 st1] eqn:Ew.
  destruct (writeCookie_frame _ _ _ _ _ _ _ _ Ew) as (_ & Hf1 & _).
  simpl in Hf1. rewrite <- Hf1.
  unfold DB_Begin. driver_case.
  { intros [= <- <-] [= ->]. rewrite (Hscript _ eq_refl). apply list_elem_of_here. }
  unfold Tx_Exec_delete. driver_case.
  { intros [= <- <-] [= ->]. apply Hmem.
    rewrite (Hscript0 _ eq_refl). apply list_elem_of_here. }
  unfold Tx_Prepare_insert. driver_case.
  { intros [= <- <-] [= ->]. apply Hmem, Hmem0.
    rewrite (Hscript1 _ eq_refl). apply list_elem_of_here. }
  destruct (Save_range _ _ _ _ _ _) as [[tx2|e'] st5] eqn:Er.
  - pose proof (Save_range_script _ _ _ _ _ _ _ _ Er) as Hmem5.
    unfold Tx_Commit. driver_case; [|by intros [= <- <-]].
    intros [= <- <-] [= ->]. apply Hmem, Hmem0, Hmem1, Hmem5.
    rewrite (Hscript2 _ eq_refl). apply list_elem_of_here.
  - intros [= <- <-] [= ->]. apply Hmem, Hmem0, Hmem1.
    apply (Save_range_Err_source _ _ _ _ (mkTx _) _ _ _
             (range_order_NoDup _) (keys_free_after_delete _ _ _ _) Er).
Qed.

Lemma Save_range_pass prep id name entries : ∀ tx st fs,
  faults st = replicate (length entries) None ++ fs →
  NoDup (entries.*1) →
  keys_free id name entries (tx_rows tx) →
  Save_range prep tx id name entries st
  = (Ok (mkTx (tx_rows tx ++ session_rows id name entries)),
     set_faults fs st).
Proof.
  induction entries as [|[k v] entries IH]; intros tx st fs Hf Hnd Hfree;
    simpl in *.
  { rewrite app_nil_r. destruct tx, st. simpl in *. by subst. }
  unfold Stmt_Exec. rewrite (driver_call_pass _ _ _ Hf).
  destruct (keys_free_step _ _ _ _ _ _ Hnd Hfree) as [Hk Hfree'].
  unfold sql_insert. rewrite decide_False by done.
  rewrite (IH _ _ fs); simpl; try done.
  - by rewrite <- app_assoc.
  - by apply NoDup_cons in Hnd as [_ ?].
Qed.

(** X9. The two failures that need no rollback. When [Begin] fails,
    [Save] returns that error with no transaction to undo. When every
    insert has gone through and [Commit] fails, [Save] returns that
    error without a rollback, and none of the inserted rows is in the
    table: it is as it was. *)
Theorem Save_Begin_or_Commit_failure (s : Store) (r : Request)
    (w : ResponseWriter) (sess : Session) (st : World)
    (e : error) (fs : list (option error)) :
  (faults st = Some e :: fs →
   ∃ out st',
     Save s r w sess st = (out, st') ∧ saved_err out = Some e ∧
     table st' = table st ∧
     events_since st st'
     = EvLock (ID sess) :: cookie_events s sess
       ++ [EvBegin; EvUnlock (ID sess)]) ∧
  (faults st
   = replicate (3 + size (stamped (clock st) (Values sess))) None
     ++ Some e :: fs →
   ∃ out st',
     Save s r w sess st = (out, st') ∧ saved_err out = Some e ∧
     table st' = table st ∧
     events_since st st'
     = EvLock (ID sess) :: cookie_events s sess
       ++ [EvBegin; EvCommit; EvUnlock (ID sess)]).
Proof.
  split; intros Hf; unfold Save, Save_locked;
    pose proof (writeCookie_trace s r w sess (Lock sess st)) as Hw;
    destruct (writeCookie _ _ _ _ _ _) as [w1 st1] eqn:Ew;
    destruct (writeCookie_frame _ _ _ _ _ _ _ _ Ew) as (Ht1 & Hf1 & Hc1);
    simpl in Hw, Ht1, Hf1, Hc1; rewrite Hf in Hf1;
    unfold time_UTC, time_Now; rewrite Hc1;
    unfold DB_Begin, Tx_Exec_delete, Tx_Prepare_insert, Tx_Commit.
  - rewrite (driver_call_fail (log EvBegin st1) e fs) by done.
    eexists _, _. split; [done|]. split; [done|]. split; [exact Ht1|].
    apply events_since_app. simpl. by rewrite Hw, <- !app_assoc.
  - set (n := size (stamped (clock st) (Values sess))) in *.
    rewrite (driver_call_pass (log EvBegin st1) (2 + n) (Some e :: fs))
      by exact Hf1.
    simpl.
    rewrite (Save_range_pass _ _ _ _ _ _ (Some e :: fs)); simpl;
      [| by rewrite range_order_length
       | apply range_order_NoDup | apply keys_free_after_delete ].
    eexists _, _. split; [done|]. split; [done|]. split; [exact Ht1|].
    apply events_since_app. simpl. by rewrite Hw, <- !app_assoc.
Qed.

(** ** [Delete] *)

(** X10. [Delete] undoes [Save] for every name at once: after a
    [Delete] that returned no error, a [New] that resolves the deleted
    identity and gets to the end returns a session without values,
    whatever the name and whatever had been saved. *)
Theorem Delete_then_New_is_empty (s : Store) (sess : Session)
    (st st1 : World) :
  Delete s sess st = (None, st1) →
  ∀ (s2 : Store) (r2 : Request) (name : string) (st2 : World) sess2 st3,
    table st2 = table st1 →
    (Store_id s2 r2 st2).1 = ID sess →
    New s2 r2 name st2 = (Ok sess2, st3) →
    ID sess2 = ID sess ∧ Values sess2 = ∅.
Proof.
  intros Hdel s2 r2 name st2 sess2 st3 Ht2 Hid Hnew.
  apply DB_Exec_delete_Ok in Hdel.
  apply New_Ok in Hnew as (HID & _ & Hvalues).
  rewrite Hid in HID, Hvalues. split; [done|].
  rewrite Hvalues, Ht2, Hdel.
  by rewrite select_key_value_rows_of_id by apply rows_of_id_delete_same.
Qed.

(** X11. [Delete] touches the rows of its session's identity only, and
    a [Delete] that returns an error, which is the driver's, has removed
    nothing. *)
Theorem Delete_touches_one_identity (s : Store) (sess : Session)
    (st : World) (err : option error) (st' : World) :
  Delete s sess st = (err, st') →
  (∀ id', id' ≠ list_byte_of_string (ID sess) →
          rows_of_id id' (table st') = rows_of_id id' (table st)) ∧
  (∀ e, err = Some e →
        table st' = table st ∧ faults st = Some e :: faults st').
Proof.
  unfold Delete, DB_Exec_delete. driver_case; intros [= <- <-].
  - split; [intros id' _; by rewrite Htable|].
    intros e' [= <-]. split; [done|]. by apply Hscript.
  - split; [|done]. intros id' Hid'. simpl.
    by rewrite rows_of_id_delete_other, Htable.
Qed.

(** ** [Clean] *)

Lemma DB_Exec_delete_frame id st err st' :
  DB_Exec_delete id st = (err, st') →
  trace st' = trace st ∧ clock st' = clock st ∧
  (err = None → table st' = sql_delete_where_id id (table st)) ∧
  (err ≠ None → table st' = table st).
Proof.
  unfold DB_Exec_delete. driver_case; intros [= <- <-]; simpl.
  - done.
  - split_and!; [done|done| |done]. intros _. by rewrite Htable.
Qed.

Lemma elem_of_delete_where_id id row t :
  row ∈ sql_delete_where_id id t → row ∈ t.
Proof. unfold sql_delete_where_id. by intros [_ ?]%list_elem_of_filter. Qed.

(** What the loop of [Clean] does in every outcome: it logs nothing, it
    only removes rows, and the rows of an id are as they were unless
    one of its markers among the rows scanned is before the cutoff. *)
Lemma Clean_rows_safe cutoff rows : ∀ st err st',
  Clean_rows cutoff rows st = (err, st') →
  trace st' = trace st ∧
  (∀ row, row ∈ table st' → row ∈ table st) ∧
  (∀ id, rows_of_id id (table st') = rows_of_id id (table st) ∨
         (rows_of_id id (table st') = [] ∧ stale_among cutoff id rows)).
Proof.
  induction rows as [|[id0 last0] rows IH]; intros st err st'; simpl.
  { driver_case; intros [= <- <-]; rewrite Htable, Htrace;
      (split_and!; [done|done|by left]). }
  driver_case.
  { intros [= <- <-]. rewrite Htable, Htrace. split_and!; [done|done|by left]. }
  driver_case.
  { intros [= <- <-]. rewrite Htable0, Htable, Htrace0, Htrace.
    split_and!; [done|done|by left]. }
  destruct (time_Parse last0) as [lastUp|e] eqn:Eparse.
  2:{ intros [= <- <-]. rewrite Htable0, Htable, Htrace0, Htrace.
      split_and!; [done|done|by left]. }
  unfold time_Before. destruct (Z.ltb_spec lastUp cutoff) as [Hlt|Hge].
  - destruct (DB_Exec_delete id0 st1) as [[e|] st2] eqn:Edel;
      destruct (DB_Exec_delete_frame _ _ _ _ Edel) as (Hl2 & _ & Hok & Hfail).
    + intros [= <- <-]. rewrite Hfail by done.
      rewrite Hl2, Htable0, Htable, Htrace0, Htrace.
      split_and!; [done|done|by left].
    + specialize (Hok eq_refl). intros Hrest.
      apply IH in Hrest as (Hl' & Hsub & Hids).
      split_and!.
      * by rewrite Hl', Hl2, Htrace0, Htrace.
      * intros row Hrow. apply Hsub in Hrow. rewrite Hok in Hrow.
        apply elem_of_delete_where_id in Hrow. by rewrite <- Htable, <- Htable0.
      * intros id. destruct (Hids id) as [Hsame|[Hnone Hstale]].
        -- rewrite Hsame, Hok, rows_of_id_delete, Htable0, Htable.
           case_decide as Hid; [|by left]. subst. right. split; [done|].
           exists last0, lastUp. split; [apply list_elem_of_here|done].
        -- right. split; [done|].
           destruct Hstale as (last & t & Hin & Hp & Ht).
           exists last, t. split; [by apply list_elem_of_further|done].
  - intros Hrest. apply IH in Hrest as (Hl' & Hsub & Hids). split_and!.
    + by rewrite Hl', Htrace0, Htrace.
    + intros row Hrow. apply Hsub in Hrow. by rewrite <- Htable, <- Htable0.
    + intros id. destruct (Hids id) as [Hsame|[Hnone Hstale]].
      * left. by rewrite Hsame, Htable0, Htable.
      * right. split; [done|].
        destruct Hstale as (last & t & Hin & Hp & Ht).
        exists last, t. split; [by apply list_elem_of_further|done].
Qed.

Lemma Clean_unfold s inactive st err st' :
  Clean s inactive st = (err, st') →
  (∃ e st0, err = Some e ∧ faults st = Some e :: faults st0 ∧
            table st' = table st ∧
            trace st' = trace st ++ [EvLock "clean"; EvUnlock "clean"]) ∨
  (∃ st0 st1,
     table st0 = table st ∧ clock st0 = clock st ∧
     trace st0 = trace st ++ [EvLock "clean"] ∧
     Clean_rows (Clean_cutoff inactive st)
       (sql_select_id_value SessionLastUpdated (table st)) st0 = (err, st1) ∧
     table st' = table st1 ∧
     trace st' = trace st1 ++ [EvUnlock "clean"]).
Proof.
  unfold Clean, DB_Query_id_value, Clean_cutoff, time_UTC, time_Now.
  driver_case.
  - intros [= <- <-]. left. exists e, st0. split_and!; try done.
    + by apply Hscript.
    + simpl. by rewrite Htrace, <- app_assoc.
  - rewrite Hclock, Htable.
    destruct (Clean_rows _ _ _) as [err1 st1] eqn:Erows.
    intros [= <- <-]. right. exists st0, st1. by split_and!.
Qed.

(** X12. [Clean] is safe in every outcome, the ones that end in an
    error included: it adds no row, the rows of an identity are either
    all kept or all removed, and they are removed only if the identity
    has a last-updated marker that parses to an instant before the
    cutoff. An identity without such a marker, or without any marker,
    is never swept. *)
Theorem Clean_only_sweeps_stale (s : Store) (inactive : Duration)
    (st : World) (err : option error) (st' : World) :
  Clean s inactive st = (err, st') →
  (∀ row, row ∈ table st' → row ∈ table st) ∧
  (∀ id, rows_of_id id (table st') = rows_of_id id (table st) ∨
         (rows_of_id id (table st') = [] ∧
          stale (Clean_cutoff inactive st) id (table st))).
Proof.
  intros Hclean.
  destruct (Clean_unfold _ _ _ _ _ Hclean)
    as [(e & st0 & _ & _ & Ht & _)|(st0 & st1 & Ht0 & _ & _ & Hrows & Ht' & _)].
  - rewrite Ht. split; [done|]. intros id. by left.
  - apply Clean_rows_safe in Hrows as (_ & Hsub & Hids).
    rewrite Ht0 in Hsub, Hids. rewrite Ht'. split; [done|]. apply Hids.
Qed.


(** With a driver that reports no failure, the loop gets through a
    run of markers that parse as if they were all there is, and goes on
    from there. *)
Lemma Clean_rows_prefix_quiet cutoff pre rest : ∀ st,
  faults st = [] →
  (∀ id last, (id, last) ∈ pre → ∃ lastUp, time_Parse last = Ok lastUp) →
  ∃ st1,
    Clean_rows cutoff pre st = (None, st1) ∧ faults st1 = [] ∧
    Clean_rows cutoff (pre ++ rest) st = Clean_rows cutoff rest st1.
Proof.
  induction pre as [|[id0 last0] pre IH]; intros st Hq Hparse.
  { exists st. simpl. by rewrite driver_call_quiet. }
  destruct (Hparse id0 last0 (list_elem_of_here _ _)) as [lastUp Hp].
  assert (∀ id last, (id, last) ∈ pre → ∃ lastUp, time_Parse last = Ok lastUp)
    as Hparse' by (intros ???; eapply Hparse; by apply list_elem_of_further).
  simpl. rewrite driver_call_quiet by done. simpl.
  rewrite driver_call_quiet by done. rewrite Hp.
  destruct (time_Before lastUp cutoff).
  - rewrite DB_Exec_delete_quiet by done. by apply IH.
  - by apply IH.
Qed.

(** X14. A marker that does not parse stops the sweep where it stands,
    with nothing undone: with a driver that reports no failure, [Clean]
    returns the parse error of the first such marker in the order of
    its query; the identities swept are those with a marker before the
    cutoff ahead of it, and every other identity, those with stale
    markers behind it included, keeps its rows. *)
Theorem Clean_stops_at_unparsable_marker (s : Store) (inactive : Duration)
    (st : World) (pre post : list (bytes * string))
    (bad_id : bytes) (bad : string) (e : error) :
  faults st = [] →
  sql_select_id_value SessionLastUpdated (table st)
  = pre ++ (bad_id, bad) :: post →
  (∀ id last, (id, last) ∈ pre → ∃ lastUp, time_Parse last = Ok lastUp) →
  time_Parse bad = Err e →
  ∃ st',
    Clean s inactive st = (Some e, st') ∧
    ∀ id,
      (stale_among (Clean_cutoff inactive st) id pre →
       rows_of_id id (table st') = []) ∧
      (fresh_among (Clean_cutoff inactive st) id pre →
       rows_of_id id (table st') = rows_of_id id (table st)).
Proof.
  intros Hq Hrows Hparse Hbad.
  unfold Clean, DB_Query_id_value. rewrite driver_call_quiet by done.
  cbn [table log]. rewrite Hrows.
  change (time_Add (time_UTC (time_Now (log (EvLock "clean") st)))
            (Duration_neg inactive)) with (Clean_cutoff inactive st).
  destruct (Clean_rows_prefix_quiet (Clean_cutoff inactive st) pre
              ((bad_id, bad) :: post) (log (EvLock "clean") st) Hq Hparse)
    as (st1 & Hpre & Hq1 & ->).
  simpl. rewrite driver_call_quiet by done. simpl.
  rewrite driver_call_quiet by done. rewrite Hbad.
  eexists. split; [done|]. intros id. simpl.
  apply (Clean_rows_Ok _ _ _ _ id) in Hpre. exact Hpre.
Qed.

(** Where no marker scanned is before the cutoff, the loop removes
    nothing, however it ends. *)
Lemma Clean_rows_noop cutoff rows : ∀ st err st',
  (∀ id, fresh_among cutoff id rows) →
  Clean_rows cutoff rows st = (err, st') →
  table st' = table st.
Proof.
  induction rows as [|[id0 last0] rows IH]; intros st err st' Hfresh; simpl.
  { driver_case; by intros [= <- <-]. }
  driver_case; [by intros [= <- <-]|].
  driver_case; [intros [= <- <-]; congruence|].
  destruct (time_Parse last0) as [lastUp|e] eqn:Eparse;
    [|intros [= <- <-]; congruence].
  pose proof (Hfresh id0 last0 lastUp (list_elem_of_here _ _) Eparse) as Hge.
  unfold time_Before. destruct (Z.ltb_spec lastUp cutoff) as [Hlt|_]; [lia|].
  intros Hrest. apply IH in Hrest; [congruence|].
  intros id last t Hin. apply (Hfresh id). by apply list_elem_of_further.
Qed.

Lemma elem_of_select_id_value id last key t :
  (id, last) ∈ sql_select_id_value key t ↔
  ∃ row, row ∈ t ∧ row_id row = id ∧ row_key row = key ∧ row_value row = last.
Proof.
  unfold sql_select_id_value. rewrite list_elem_of_fmap. split.
  - intros (row & [= -> ->] & Hrow).
    apply list_elem_of_filter in Hrow as [Hkey Hrow]. by exists row.
  - intros (row & Hrow & <- & Hkey & <-). exists row. split; [done|].
    by apply list_elem_of_filter.
Qed.

Lemma elem_of_rows_of_id id row t :
  row ∈ t → row_id row = id → row ∈ rows_of_id id t.
Proof. intros ??. unfold rows_of_id. by apply list_elem_of_filter. Qed.

(** X15. Sweeping twice is sweeping once: after a [Clean] that returned
    no error, a second [Clean] with the same threshold at the same
    instant finds nothing to remove, however it ends. *)
Theorem Clean_twice_is_once (s : Store) (inactive : Duration)
    (st st1 : World) :
  Clean s inactive st = (None, st1) →
  ∀ (s2 : Store) (stb : World) (err : option error) (st2 : World),
    table stb = table st1 →
    clock stb = clock st →
    Clean s2 inactive stb = (err, st2) →
    table st2 = table st1.
Proof.
  intros Hfirst s2 stb err st2 Htb Hcb Hsecond.
  assert (∀ row, row ∈ table st1 → row ∈ table st) as Hsub.
  { destruct (Clean_unfold _ _ _ _ _ Hfirst)
      as [(e & ? & ? & _)|(st0 & st1' & Ht0 & _ & _ & Hrows & Ht' & _)];
      [done|].
    apply Clean_rows_safe in Hrows as (_ & Hsub & _).
    rewrite Ht', <- Ht0. exact Hsub. }
  destruct (Clean_unfold _ _ _ _ _ Hsecond)
    as [(e & ? & _ & _ & Ht & _)|(st0 & st1' & Ht0 & _ & _ & Hrows & Ht' & _)].
  { congruence. }
  rewrite Ht', <- Htb, <- Ht0. revert Hrows. apply Clean_rows_noop.
  intros id last t Hin Hparse.
  assert (Clean_cutoff inactive stb = Clean_cutoff inactive st) as ->
    by (unfold Clean_cutoff, time_UTC, time_Now; by rewrite Hcb).
  destruct (Z.lt_ge_cases t (Clean_cutoff inactive st)) as [Hlt|Hge]; [|done].
  exfalso. rewrite Htb in Hin.
  apply elem_of_select_id_value in Hin as (row & Hrow & Hid & Hkey & Hval).
  assert (stale (Clean_cutoff inactive st) id (table st)) as Hstale.
  { exists last, t. split; [|done]. apply elem_of_select_id_value.
    exists row. split; [by apply Hsub|done]. }
  apply (Clean_Ok _ _ _ _ id Hfirst) in Hstale.
  pose proof (elem_of_rows_of_id _ _ _ Hrow Hid) as Hin'.
  rewrite Hstale in Hin'. by apply elem_of_nil in Hin'.
Qed.

(** ** [Save], then [Clean] *)

(** After a successful [Save] the identity has one last-updated marker:
    the driver's text for the instant of the save. *)
Lemma Save_Ok_marker s r w sess st out st' last :
  Save s r w sess st = (out, st') →
  saved_err out = None →
  (list_byte_of_string (ID sess), last)
    ∈ sql_select_id_value SessionLastUpdated (table st') ↔
  last = driver_format_time (clock st).
Proof.
  intros Hsave Hok. rewrite (Save_Ok_table _ _ _ _ _ _ _ Hsave Hok).
  rewrite elem_of_select_id_value. split.
  - intros (row & Hrow & Hid & Hkey & <-).
    apply elem_of_app in Hrow as [Hrow|Hrow].
    { apply list_elem_of_filter in Hrow as [Hne _]. done. }
    unfold session_rows in Hrow.
    apply list_elem_of_fmap in Hrow as ([k v] & -> & Hkv).
    simpl in Hkey. subst k. simpl.
    rewrite (range_order_perm _) in Hkv.
    apply elem_of_map_to_list in Hkv. unfold stamped in Hkv.
    rewrite lookup_insert_eq in Hkv. by injection Hkv as <-.
  - intros ->.
    exists (mkRow (list_byte_of_string (ID sess)) (Name sess)
              SessionLastUpdated (driver_format_time (clock st))).
    split; [|done]. apply elem_of_app. right.
    unfold session_rows. apply list_elem_of_fmap.
    exists (SessionLastUpdated, VTime (clock st)). split; [done|].
    rewrite (range_order_perm _). apply elem_of_map_to_list.
    apply lookup_insert_eq.
Qed.

(** X16. From [Save] to [Clean], with a driver whose text for the
    instant of the save parses back to it: a sweep that runs to its
    end on the table a successful [Save] left removes the session if
    it was saved strictly before the sweep's cutoff, and keeps all its
    rows if it was saved at the cutoff or later; a session saved at
    the very instant of a sweep with threshold zero is kept. *)
Theorem Save_then_Clean (s : Store) (r : Request) (w : ResponseWriter)
    (sess : Session) (st : World) (out : Saved) (st1 : World)
    (s2 : Store) (inactive : Duration) (stc st2 : World) :
  time_Parse (driver_format_time (clock st)) = Ok (clock st) →
  Save s r w sess st = (out, st1) →
  saved_err out = None →
  table stc = table st1 →
  Clean s2 inactive stc = (None, st2) →
  let id := list_byte_of_string (ID sess) in
  ((clock st < Clean_cutoff inactive stc)%Z →
   rows_of_id id (table st2) = []) ∧
  ((Clean_cutoff inactive stc ≤ clock st)%Z →
   rows_of_id id (table st2) = rows_of_id id (table st1)).
Proof.
  intros Hround Hsave Hok Htc Hclean id.
  pose proof (Clean_Ok _ _ _ _ id Hclean) as [Hstale Hfresh].
  rewrite Htc in Hstale, Hfresh.
  change (time_Add (clock stc) (Duration_neg inactive))
    with (Clean_cutoff inactive stc) in Hstale, Hfresh.
  split.
  - intros Hlt. apply Hstale.
    exists (driver_format_time (clock st)), (clock st).
    split; [|done]. by apply (Save_Ok_marker _ _ _ _ _ _ _ _ Hsave Hok).
  - intros Hge. apply Hfresh. intros last t Hin Hparse.
    apply (Save_Ok_marker _ _ _ _ _ _ _ _ Hsave Hok) in Hin. subst last.
    rewrite Hround in Hparse. by injection Hparse as <-.
Qed.

(** ** [New], then [Save] *)

(** X17. Loading and saving back keeps the attributes: when the rows of
    an identity and name have distinct keys, as the primary key has it,
    a successful [Save] of the session [New] loaded from them stores
    those same keys and texts again, the last-updated marker alone
    being replaced by the driver's text for the instant of the save. *)
Theorem New_then_Save_keeps_attributes (s : Store) (r : Request)
    (name : string) (st : World) (sess : Session) (st1 : World)
    (s2 : Store) (r2 : Request) (w : ResponseWriter) (st2 : World)
    (out : Saved) (st3 : World) :
  NoDup ((sql_select_key_value (list_byte_of_string (Store_id s r st).1)
            name (table st)).*1) →
  New s r name st = (Ok sess, st1) →
  Save s2 r2 w sess st2 = (out, st3) →
  saved_err out = None →
  sql_select_key_value (list_byte_of_string (ID sess)) name (table st3)
  ≡ₚ map_to_list
       (<[SessionLastUpdated := driver_format_time (clock st2)]>
          (list_to_map
             (sql_select_key_value (list_byte_of_string (ID sess)) name
                (table st)) : gmap string string)).
Proof.
  intros Hnd Hnew Hsave Hok.
  apply New_Ok in Hnew as (HID & Hname & Hvalues).
  pose proof (Save_Ok_select _ _ _ _ _ _ _ Hsave Hok) as Hrows.
  rewrite Hname in Hrows. rewrite Hrows. unfold stored.
  rewrite Hvalues, HID, foldl_insert_NoDup by done.
  rewrite (right_id_L ∅ (∪)), <- map_fmap_compose.
  by rewrite (map_fmap_ext _ id) by done; rewrite map_fmap_id.
Qed.

End Further.

(** * The further properties at concrete inputs *)

(** X2 at work: the returning visitor, and the anonymous one. *)
Lemma Store_id_never_empty_witness :
  Store_id (H := Demo.env) Demo.store Demo.returning (Demo.world [] [])
  = (Demo.alice, Demo.world [] []) ∧
  String.length
    (Store_id (H := Demo.env) Demo.store Demo.anonymous (Demo.world [] [])).1
  = 64 ∧
  (Store_id (H := Demo.env) Demo.store Demo.anonymous (Demo.world [] [])).1
  ≠ "".
Proof.
  destruct (Store_id_never_empty (H := Demo.env) Demo.store Demo.returning
              (Demo.world [] [])) as (_ & Hcookie & _).
  destruct (Store_id_never_empty (H := Demo.env) Demo.store Demo.anonymous
              (Demo.world [] [])) as (Hne & _ & Hmint).
  split; [|split; [|exact Hne]].
  - apply Hcookie. discriminate.
  - apply Hmint. reflexivity.
Defined.

(** X3 at work: [alice] comes back with the cookies of the save. *)
Lemma Save_cookie_round_trip_witness :
  Encode (cookrw (H := Demo.env) Demo.store) CookieIdName Demo.alice
  = Ok "#alice" ∧
  Decode (cookrw (H := Demo.env) Demo.store) CookieIdName "#alice"
  = Ok Demo.alice ∧
  Store_id (H := Demo.env) Demo.store Demo.comes_back (Demo.world [] [])
  = (Demo.alice, Demo.world [] []).
Proof.
  split; [reflexivity|]. split; [reflexivity|].
  assert (ID Demo.sess ≠ "") as Hid by discriminate.
  assert (∀ c : Cookie, c ∈ [] → cookie_Name c ≠ CookieIdName) as Hw
    by (intros c Hc; by apply elem_of_nil in Hc).
  exact (Save_cookie_round_trip (H := Demo.env)
           Demo.store Demo.anonymous [] Demo.sess (Demo.world Demo.prior [])
           "#alice" Demo.saved.1 Demo.saved.2 eq_refl eq_refl Hid Hw
           (surjective_pairing _) (Demo.world [] [])).
Defined.

(** X4 at work: a load that is cut short leaves the table and the
    locks as a load that gets through does. *)
Lemma New_only_reads_witness :
  table Demo.load_failed.2 = Demo.prior ∧
  events_since
    (Demo.world Demo.prior [None; None; None; Some Demo.connection_reset])
    Demo.load_failed.2
  = [EvRLock Demo.alice; EvRUnlock Demo.alice].
Proof.
  exact (New_only_reads (H := Demo.env) Demo.store Demo.returning "web"
           (Demo.world Demo.prior
              [None; None; None; Some Demo.connection_reset])
           Demo.load_failed.1 Demo.load_failed.2 (surjective_pairing _)).
Defined.

(** X5 at work: the driver fails when asked for the second row. *)
Lemma New_hands_on_read_error_witness :
  length (sql_select_key_value Demo.alice_id "web" Demo.prior) = 2 ∧
  ∃ st', Demo.load_failed = (Err Demo.connection_reset, st') ∧
         table st' = Demo.prior.
Proof.
  split; [reflexivity|].
  assert (3 ≤ 1 + 2 * length
            (sql_select_key_value
               (list_byte_of_string
                  (Store_id (H := Demo.env) Demo.store Demo.returning
                     (Demo.world Demo.prior
                        [None; None; None; Some Demo.connection_reset])).1)
               "web"
               (table (Demo.world Demo.prior
                         [None; None; None; Some Demo.connection_reset]))))
    as Hn by (vm_compute; lia).
  exact (New_hands_on_read_error (H := Demo.env) Demo.store Demo.returning
           "web"
           (Demo.world Demo.prior
              [None; None; None; Some Demo.connection_reset])
           3 Demo.connection_reset [] eq_refl Hn).
Defined.

(** X6 at work: the save that went through, and the one whose insert
    failed. *)
Lemma Save_lock_and_transaction_discipline_witness :
  (∃ tx_events,
     events_since (Demo.world Demo.prior []) Demo.saved.2
     = EvLock Demo.alice
       :: cookie_events (H := Demo.env) Demo.store Demo.sess
       ++ EvBegin :: tx_events ++ [EvUnlock Demo.alice] ∧
     (tx_events = [EvCommit] ∨
      (saved_err Demo.saved.1 ≠ None ∧
       (tx_events = [] ∨ tx_events = [EvRollback])))) ∧
  events_since (Demo.world Demo.prior []) Demo.saved.2
  = [EvLock Demo.alice;
     EvSetCookie (mkCookie CookieIdName "#alice" "/" true);
     EvBegin; EvCommit; EvUnlock Demo.alice].
Proof.
  split; [|vm_compute; reflexivity].
  exact (Save_lock_and_transaction_discipline (H := Demo.env)
           Demo.store Demo.anonymous [] Demo.sess (Demo.world Demo.prior [])
           Demo.saved.1 Demo.saved.2 (surjective_pairing _)).
Defined.

(** X7 at work: [bob] is not touched by [alice]'s save, and nothing is
    by the save whose insert failed. *)
Lemma Save_all_or_nothing_witness :
  rows_of_id Demo.bob_id (table Demo.saved.2)
  = rows_of_id Demo.bob_id Demo.prior ∧
  saved_err Demo.insert_failed.1 ≠ None ∧
  table Demo.insert_failed.2 = Demo.prior.
Proof.
  destruct (Save_all_or_nothing (H := Demo.env)
              Demo.store Demo.anonymous [] Demo.sess (Demo.world Demo.prior [])
              Demo.saved.1 Demo.saved.2 (surjective_pairing _))
    as (Hothers & _ & _).
  destruct (Save_all_or_nothing (H := Demo.env)
              Demo.store Demo.anonymous [] Demo.sess
              (Demo.world Demo.prior
                 [None; None; None; None; Some Demo.connection_reset])
              Demo.insert_failed.1 Demo.insert_failed.2 (surjective_pairing _))
    as (_ & Hfailed & _).
  assert (saved_err Demo.insert_failed.1 ≠ None) as Herr
    by (vm_compute; discriminate).
  split; [|split; [exact Herr|exact (Hfailed Herr)]].
  apply Hothers. discriminate.
Defined.

(** X8 at work. *)
Lemma Save_errors_are_the_drivers_witness :
  saved_err Demo.insert_failed.1 = Some Demo.connection_reset ∧
  Some Demo.connection_reset
    ∈ [None; None; None; None; Some Demo.connection_reset].
Proof.
  assert (saved_err Demo.insert_failed.1 = Some Demo.connection_reset)
    as Herr by (vm_compute; reflexivity).
  split; [exact Herr|].
  exact (Save_errors_are_the_drivers (H := Demo.env)
           Demo.store Demo.anonymous [] Demo.sess
           (Demo.world Demo.prior
              [None; None; None; None; Some Demo.connection_reset])
           Demo.insert_failed.1 Demo.insert_failed.2 Demo.connection_reset
           (surjective_pairing _) Herr).
Defined.

(** X9 at work: [Begin] fails; [Commit] fails after both inserts. *)
Lemma Save_Begin_or_Commit_failure_witness :
  (∃ out st', Demo.begin_failed = (out, st') ∧
              saved_err out = Some Demo.connection_reset ∧
              table st' = Demo.prior) ∧
  (∃ out st', Demo.commit_failed = (out, st') ∧
              saved_err out = Some Demo.connection_reset ∧
              table st' = Demo.prior).
Proof.
  split.
  - destruct (proj1 (Save_Begin_or_Commit_failure (H := Demo.env)
                       Demo.store Demo.anonymous [] Demo.sess
                       (Demo.world Demo.prior [Some Demo.connection_reset])
                       Demo.connection_reset []) eq_refl)
      as (out & st' & Hsave & Herr & Htable & _).
    exists out, st'. split; [exact Hsave|]. split; [exact Herr|exact Htable].
  - destruct (proj2 (Save_Begin_or_Commit_failure (H := Demo.env)
                       Demo.store Demo.anonymous [] Demo.sess
                       (Demo.world Demo.prior
                          [None; None; None; None; None;
                           Some Demo.connection_reset])
                       Demo.connection_reset [])
                ltac:(vm_compute; reflexivity))
      as (out & st' & Hsave & Herr & Htable & _).
    exists out, st'. split; [exact Hsave|]. split; [exact Herr|exact Htable].
Defined.

(** X10 at work: [alice] is deleted, and comes back for her "admin"
    session. *)
Lemma Delete_then_New_is_empty_witness :
  (Delete Demo.store Demo.sess (Demo.world Demo.prior [])).1 = None ∧
  ∃ sess2 st3,
    New (H := Demo.env) Demo.store Demo.returning "admin"
      (Delete Demo.store Demo.sess (Demo.world Demo.prior [])).2
    = (Ok sess2, st3) ∧
    ID sess2 = Demo.alice ∧ Values sess2 = ∅.
Proof.
  split; [vm_compute; reflexivity|].
  assert (Delete Demo.store Demo.sess (Demo.world Demo.prior [])
          = (None, (Delete Demo.store Demo.sess (Demo.world Demo.prior [])).2))
    as Hdel by (vm_compute; reflexivity).
  destruct (New (H := Demo.env) Demo.store Demo.returning "admin"
              (Delete Demo.store Demo.sess (Demo.world Demo.prior [])).2)
    as [[sess2|e] st3] eqn:Hnew; [|vm_compute in Hnew; discriminate Hnew].
  exists sess2, st3. split; [reflexivity|].
  exact (Delete_then_New_is_empty (H := Demo.env) Demo.store Demo.sess
           (Demo.world Demo.prior []) _ Hdel
           Demo.store Demo.returning "admin" _ sess2 st3
           eq_refl ltac:(vm_compute; reflexivity) Hnew).
Defined.

(** X11 at work: [bob] keeps his rows when [alice] is deleted. *)
Lemma Delete_touches_one_identity_witness :
  rows_of_id Demo.bob_id
    (table (Delete Demo.store Demo.sess (Demo.world Demo.prior [])).2)
  = rows_of_id Demo.bob_id Demo.prior ∧
  table (Delete Demo.store Demo.sess
           (Demo.world Demo.prior [Some Demo.connection_reset])).2
  = Demo.prior.
Proof.
  split.
  - apply (proj1 (Delete_touches_one_identity Demo.store Demo.sess
                    (Demo.world Demo.prior []) _ _ (surjective_pairing _))).
    discriminate.
  - exact (proj1 (proj2 (Delete_touches_one_identity Demo.store Demo.sess
                           (Demo.world Demo.prior [Some Demo.connection_reset])
                           _ _ (surjective_pairing _))
                    Demo.connection_reset ltac:(vm_compute; reflexivity))).
Defined.

(** X12 at work: the sweep that stops at a damaged marker has removed
    [alice] only, and has added nothing. *)
Lemma Clean_only_sweeps_stale_witness :
  Demo.swept_damaged.1 ≠ None ∧
  (∀ row, row ∈ table Demo.swept_damaged.2 → row ∈ Demo.damaged) ∧
  (rows_of_id Demo.carol_id (table Demo.swept_damaged.2)
   = rows_of_id Demo.carol_id Demo.damaged ∨
   (rows_of_id Demo.carol_id (table Demo.swept_damaged.2) = [] ∧
    stale (H := Demo.env) (Clean_cutoff 0 (Demo.world Demo.damaged []))
      Demo.carol_id Demo.damaged)).
Proof.
  destruct (Clean_only_sweeps_stale (H := Demo.env) Demo.store 0%Z
              (Demo.world Demo.damaged [])
              Demo.swept_damaged.1 Demo.swept_damaged.2 (surjective_pairing _))
    as [Hsub Hids].
  split; [vm_compute; discriminate|]. split; [exact Hsub|].
  exact (Hids Demo.carol_id).
Defined.


(** X14 at work: [carol]'s marker does not parse; [alice], scanned
    before it, is swept, and [bob], stale as well but scanned after it,
    is not. *)
Lemma Clean_stops_at_unparsable_marker_witness :
  sql_select_id_value SessionLastUpdated Demo.damaged
  = [(Demo.alice_id, Demo.format (Demo.now - 10 * Demo.day))]
    ++ (Demo.carol_id, "yesterday")
    :: [(Demo.bob_id, Demo.format (Demo.now - Demo.day))] ∧
  ∃ st',
    Demo.swept_damaged = (Some "parsing time: cannot parse", st') ∧
    rows_of_id Demo.alice_id (table st') = [] ∧
    rows_of_id Demo.bob_id (table st') = rows_of_id Demo.bob_id Demo.damaged.
Proof.
  assert (sql_select_id_value SessionLastUpdated
            (table (Demo.world Demo.damaged []))
          = [(Demo.alice_id, Demo.format (Demo.now - 10 * Demo.day))]
            ++ (Demo.carol_id, "yesterday")
            :: [(Demo.bob_id, Demo.format (Demo.now - Demo.day))]) as Hrows
    by (vm_compute; reflexivity).
  split; [exact Hrows|].
  assert (∀ id last,
            (id, last)
              ∈ [(Demo.alice_id, Demo.format (Demo.now - 10 * Demo.day))] →
            ∃ lastUp, time_Parse (Environment := Demo.env) last = Ok lastUp)
    as Hparse.
  { intros id last Hin. apply list_elem_of_singleton in Hin.
    injection Hin as -> ->. eexists. vm_compute. reflexivity. }
  destruct (Clean_stops_at_unparsable_marker (H := Demo.env) Demo.store 0%Z
              (Demo.world Demo.damaged []) _ _ _ _
              "parsing time: cannot parse" eq_refl Hrows Hparse
              ltac:(vm_compute; reflexivity))
    as (st' & Hclean & Hids).
  exists st'. split; [exact Hclean|]. split.
  - apply (proj1 (Hids Demo.alice_id)).
    exists (Demo.format (Demo.now - 10 * Demo.day)),
           (Demo.now - 10 * Demo.day)%Z.
    split; [apply list_elem_of_here|].
    split; vm_compute; reflexivity.
  - apply (proj2 (Hids Demo.bob_id)).
    intros last t Hin. apply list_elem_of_singleton in Hin.
    discriminate Hin.
Defined.

(** X15 at work: the sweep of five days, twice. *)
Lemma Clean_twice_is_once_witness :
  Demo.swept.1 = None ∧
  table (Clean (H := Demo.env) Demo.store (5 * Demo.day)%Z
           (Demo.world (table Demo.swept.2) [])).2
  = table Demo.swept.2.
Proof.
  split; [vm_compute; reflexivity|].
  assert (Clean (H := Demo.env) Demo.store (5 * Demo.day)%Z
            (Demo.world Demo.prior []) = (None, Demo.swept.2)) as Hfirst
    by (vm_compute; reflexivity).
  exact (Clean_twice_is_once (H := Demo.env) Demo.store (5 * Demo.day)%Z
           (Demo.world Demo.prior []) Demo.swept.2 Hfirst
           Demo.store (Demo.world (table Demo.swept.2) []) _ _
           eq_refl eq_refl (surjective_pairing _)).
Defined.

(** X16 at work: [alice], saved at the instant of a sweep with
    threshold zero, is kept; a day later she is swept. *)
Lemma Save_then_Clean_witness :
  time_Parse (Environment := Demo.env)
    (driver_format_time (Environment := Demo.env) Demo.now) = Ok Demo.now ∧
  saved_err Demo.saved.1 = None ∧
  Demo.swept_at_once.1 = None ∧
  rows_of_id Demo.alice_id (table Demo.swept_at_once.2)
  = rows_of_id Demo.alice_id (table Demo.saved.2) ∧
  Demo.swept_next_day.1 = None ∧
  rows_of_id Demo.alice_id (table Demo.swept_next_day.2) = [].
Proof.
  assert (time_Parse (Environment := Demo.env)
            (driver_format_time (Environment := Demo.env) Demo.now)
          = Ok Demo.now) as Hround by (vm_compute; reflexivity).
  assert (saved_err Demo.saved.1 = None) as Hok by (vm_compute; reflexivity).
  assert (Demo.swept_at_once = (None, Demo.swept_at_once.2)) as Hsame
    by (vm_compute; reflexivity).
  assert (Demo.swept_next_day = (None, Demo.swept_next_day.2)) as Hlater
    by (vm_compute; reflexivity).
  split; [exact Hround|]. split; [exact Hok|].
  split; [vm_compute; reflexivity|]. split; [|split].
  - apply (proj2 (Save_then_Clean (H := Demo.env)
                    Demo.store Demo.anonymous [] Demo.sess
                    (Demo.world Demo.prior []) Demo.saved.1 Demo.saved.2
                    Demo.store 0%Z (Demo.world (table Demo.saved.2) [])
                    Demo.swept_at_once.2
                    Hround (surjective_pairing _) Hok eq_refl Hsame)).
    vm_compute. discriminate.
  - vm_compute. reflexivity.
  - apply (proj1 (Save_then_Clean (H := Demo.env)
                    Demo.store Demo.anonymous [] Demo.sess
                    (Demo.world Demo.prior []) Demo.saved.1 Demo.saved.2
                    Demo.store 0%Z
                    (mkWorld (table Demo.saved.2) [] (Demo.now + Demo.day)%Z
                       (λ n, Byte.x2a) 0 [])
                    Demo.swept_next_day.2
                    Hround (surjective_pairing _) Hok eq_refl Hlater)).
    vm_compute. reflexivity.
Defined.

(** X17 at work: [alice] loads what the save left and saves it back a
    day later; her attributes are the same, the marker is the later
    instant's. *)
Lemma New_then_Save_keeps_attributes_witness :
  ∃ sess st1 out st3,
    New (H := Demo.env) Demo.store Demo.returning "web" Demo.saved.2
    = (Ok sess, st1) ∧
    Save (H := Demo.env) Demo.store Demo.returning [] sess
      (mkWorld (table Demo.saved.2) [] (Demo.now + Demo.day)%Z
         (λ n, Byte.x2a) 0 [])
    = (out, st3) ∧
    saved_err out = None ∧
    sql_select_key_value Demo.alice_id "web" (table st3)
    ≡ₚ map_to_list
         (<[SessionLastUpdated := Demo.format (Demo.now + Demo.day)]>
            ({[ "user" := "bob" ]} : gmap string string)).
Proof.
  destruct (New (H := Demo.env) Demo.store Demo.returning "web" Demo.saved.2)
    as [[sess|e] st1] eqn:Hnew; [|vm_compute in Hnew; discriminate Hnew].
  destruct (Save (H := Demo.env) Demo.store Demo.returning [] sess
              (mkWorld (table Demo.saved.2) [] (Demo.now + Demo.day)%Z
                 (λ n, Byte.x2a) 0 []))
    as [out st3] eqn:Hsave.
  assert (sess = mkSession Demo.alice "web"
                   (VString <$> ({[ SessionLastUpdated := Demo.format Demo.now;
                                    "user" := "bob" ]} : gmap string string)))
    as Hsess by (vm_compute in Hnew; injection Hnew as <- _;
                 vm_compute; reflexivity).
  assert (saved_err out = None) as Hok
    by (rewrite Hsess in Hsave; vm_compute in Hsave;
        by injection Hsave as <- _).
  exists sess, st1, out, st3.
  split; [reflexivity|]. split; [exact Hsave|]. split; [exact Hok|].
  assert (NoDup ((sql_select_key_value
                    (list_byte_of_string
                       (Store_id (H := Demo.env) Demo.store Demo.returning
                          Demo.saved.2).1)
                    "web" (table Demo.saved.2)).*1)) as Hnd.
  { change (NoDup [SessionLastUpdated; "user"]).
    apply NoDup_cons. split; [|apply NoDup_singleton].
    intros Hin. apply list_elem_of_singleton in Hin. discriminate Hin. }
  pose proof (New_then_Save_keeps_attributes (H := Demo.env)
                Demo.store Demo.returning "web" Demo.saved.2 sess st1
                Demo.store Demo.returning [] _ out st3 Hnd Hnew Hsave Hok)
    as Hrows.
  rewrite Hsess in Hrows. cbn [ID] in Hrows.
  assert ((<[SessionLastUpdated := Demo.format (Demo.now + Demo.day)]>
             ({[ "user" := "bob" ]} : gmap string string))
          = <[SessionLastUpdated :=
                driver_format_time (Environment := Demo.env)
                  (Demo.now + Demo.day)]>
              (list_to_map
                 (sql_select_key_value (list_byte_of_string Demo.alice) "web"
                    (table Demo.saved.2)))) as ->
    by (vm_compute; reflexivity).
  exact Hrows.
Defined.
